(** * PGM-index evaluation harness: refinement search, query workload,
      correctness tally, dataset loading and the dynamic-index drivers.

    Shallow embedding of [experiments/pgm_query.cpp] and
    [examples/playground.cpp]. *)

From Stdlib Require Import ZArith List Lia Sorted.
From Stdlib.Strings Require Import Byte.
From stdpp Require Import base decidable list sorting gmap strings.
From Equations Require Import Equations.

Local Open Scope Z_scope.

(** ** Memory accesses

    Iterators into the dataset are modelled as integer positions.  Code
    that dereferences an iterator runs in a small monad that logs every
    position touched and fails (result [None]) when a position outside the
    vector is read. *)

Module Mem.

Inductive event : Type :=
| Read (i : Z)
| Prefetch (i : Z).

Definition position (e : event) : Z :=
  match e with Read i => i | Prefetch i => i end.

Definition access (A : Type) : Type := (list event * option A)%type.

Definition ret {A} (a : A) : access A := ([], Some a).

Definition bind {A B} (m : access A) (k : A -> access B) : access B :=
  match m.2 with
  | Some a => (m.1 ++ (k a).1, (k a).2)
  | None => (m.1, None)
  end.

Definition trace {A} (m : access A) : list event := m.1.
Definition result {A} (m : access A) : option A := m.2.

(** [*it] for an iterator at position [i] of the vector [D]. *)
Definition deref (D : list Z) (i : Z) : access Z :=
  ([Read i], if decide (0 <= i) then D !! Z.to_nat i else None).

(** [__builtin_prefetch(&*first + off, 0, 0)]: a hint, never a fault. *)
Definition prefetch (i : Z) : access unit := ([Prefetch i], Some tt).

End Mem.

Import Mem.

Declare Scope access_scope.
Delimit Scope access_scope with access.
Notation "x <- m ;; k" := (Mem.bind m (fun x => k))
  (at level 100, m at next level, right associativity) : access_scope.
Notation "m ;;; k" := (Mem.bind m (fun _ => k))
  (at level 100, right associativity) : access_scope.
Local Open Scope access_scope.

Abbreviation len D := (Z.of_nat (length D)).

(** ** The branchless refiner ([lower_bound_branchless]) *)

Module Refiner.

(** [comp(a, b)] with the default [std::less]. *)
Definition comp (a b : Z) : bool := a <? b.

(** The [while (n > 1)] loop; returns the final [first]. *)
Equations? branchless_loop (D : list Z) (value : Z) (first n : Z) : access Z
  by wf (Z.to_nat n) lt :=
  branchless_loop D value first n with decide (1 < n) := {
    | left _ =>
        let half := Z.quot n 2 in
        prefetch (first + Z.quot half 2) ;;;
        prefetch (first + half + Z.quot half 2) ;;;
        x <- deref D (first + half) ;;
        branchless_loop D value
          (if comp x value then first + half else first) (n - half)
    | right _ => ret first }.
Proof.
  subst half. pose proof (Z.quot_lt n 2).
  assert (0 < Z.quot n 2) by (apply Z.quot_str_pos; lia). lia.
Qed.

Definition lower_bound_branchless (D : list Z) (first last value : Z)
  : access Z :=
  let n := last - first in
  first' <- branchless_loop D value first n ;;
  x <- deref D first' ;;
  ret (first' + Z.b2z (comp x value)).

(** [std::lower_bound(first, last, value)], the branching binary search
    of the C++ standard library (the halving loop of libstdc++'s
    [__lower_bound]); it is the reference the harness compares with. *)
Equations? std_lower_bound_loop (D : list Z) (value : Z) (first n : Z)
  : access Z by wf (Z.to_nat n) lt :=
  std_lower_bound_loop D value first n with decide (0 < n) := {
    | left _ =>
        let half := Z.shiftr n 1 in
        let middle := first + half in
        x <- deref D middle ;;
        if comp x value
        then std_lower_bound_loop D value (middle + 1) (n - half - 1)
        else std_lower_bound_loop D value first half
    | right _ => ret first }.
Proof.
  all: subst middle half; rewrite Z.shiftr_div_pow2 by lia;
    change (2 ^ 1) with 2; pose proof (Z.div_lt n 2);
    pose proof (Z.div_pos n 2); lia.
Qed.

Definition std_lower_bound (D : list Z) (first last value : Z) : access Z :=
  std_lower_bound_loop D value first (last - first).

(** The lower-bound position in the words of the data model: the index
    of the first element that is not less than [key], or the length of
    the dataset when there is none. *)
Definition lower_bound_position (D : list Z) (key : Z) : Z :=
  match list_find (fun x => key <= x) D with
  | Some (i, _) => Z.of_nat i
  | None => len D
  end.

(** [q] splits the window [lo, hi): smaller elements before it, the
    others from it on. *)
Definition partition_point (D : list Z) (key lo hi q : Z) : Prop :=
  lo <= q <= hi /\
  (forall i x, lo <= i < q -> D !! Z.to_nat i = Some x -> x < key) /\
  (forall i x, q <= i < hi -> D !! Z.to_nat i = Some x -> key <= x).

(** Every logged position lies in the window [lo, hi). *)
Definition within (lo hi : Z) (t : list event) : Prop :=
  Forall (fun e => lo <= position e < hi) t.

End Refiner.

Import Refiner.

(** ** Machine integers *)

(** Two's-complement reduction to [bits] bits: the value of an [int]
    ([bits = 32]) after an arithmetic step. *)
Definition wrap_signed (bits x : Z) : Z :=
  (x + 2 ^ (bits - 1)) mod 2 ^ bits - 2 ^ (bits - 1).

Definition INT_MAX : Z := 2 ^ 31 - 1.

(** [a + b] on [int].  Signed overflow is undefined behaviour in C++;
    the model gives the two's-complement value, which is the value of
    the source as long as the mathematical sum stays within
    [- 2^31, 2^31 - 1]. *)
Definition int_add (a b : Z) : Z := wrap_signed 32 (a + b).

(** Reduction to [uint64_t] / [size_t]. *)
Definition u64 (x : Z) : Z := x mod 2 ^ 64.

(** ** Processes: console output, [exit], undefined behaviour *)

Module Proc.

Inductive item : Type :=
| Str (s : string)
| Num (n : Z).

(** One [<< ... << std::endl] statement. *)
Definition line : Type := list item.

Record console : Type := { cout : list line; cerr : list line }.

(** How a computation ends: it returns, the process calls [exit], an
    exception that nothing catches ends the process through
    [std::terminate] ([Aborted]), or the behaviour is undefined. *)
Inductive outcome (A : Type) : Type :=
| Returned (a : A)
| Exited (status : Z)
| Aborted
| Undefined.
Arguments Returned {A} a.
Arguments Exited {A} status.
Arguments Aborted {A}.
Arguments Undefined {A}.

Definition proc (A : Type) : Type := console -> console * outcome A.

Definition ret {A} (a : A) : proc A := fun c => (c, Returned a).

Definition bind {A B} (m : proc A) (k : A -> proc B) : proc B :=
  fun c =>
    match m c with
    | (c', Returned a) => k a c'
    | (c', Exited status) => (c', Exited status)
    | (c', Aborted) => (c', Aborted)
    | (c', Undefined) => (c', Undefined)
    end.

Definition print_cout (l : line) : proc unit :=
  fun c => ({| cout := cout c ++ [l]; cerr := cerr c |}, Returned tt).

Definition print_cerr (l : line) : proc unit :=
  fun c => ({| cout := cout c; cerr := cerr c ++ [l] |}, Returned tt).

(** [exit(status)]: the process ends here. *)
Definition exit {A} (status : Z) : proc A := fun c => (c, Exited status).

(** An exception thrown and never caught: [std::terminate] aborts the
    process (the message of the C++ runtime is not modelled). *)
Definition terminate {A} : proc A := fun c => (c, Aborted).

Definition undefined {A} : proc A := fun c => (c, Undefined).

(** Memory-level code run inside a process: an out-of-bounds read is
    undefined behaviour of the process. *)
Definition lift {A} (m : access A) : proc A :=
  match result m with
  | Some a => ret a
  | None => undefined
  end.

Definition start : console := {| cout := []; cerr := [] |}.

(** [EXIT_FAILURE] of <cstdlib>. *)
Definition EXIT_FAILURE : Z := 1.

End Proc.

Declare Scope proc_scope.
Delimit Scope proc_scope with proc.
Notation "x <- m ;; k" := (Proc.bind m (fun x => k))
  (at level 100, m at next level, right associativity) : proc_scope.
Notation "m ;;; k" := (Proc.bind m (fun _ => k))
  (at level 100, right associativity) : proc_scope.

(** ** Dataset loading ([load_data], the same in both programs) *)

Module Loader.
Import Proc.

Record ifstream : Type :=
  { is_open : bool; pending : list byte; good : bool }.

(** [std::ifstream in(filename, std::ios::binary)] over a file system
    that maps the paths that can be opened to their contents. *)
Definition open (fs : gmap string (list byte)) (filename : string)
  : ifstream :=
  match fs !! filename with
  | Some bytes => {| is_open := true; pending := bytes; good := true |}
  | None => {| is_open := false; pending := []; good := false |}
  end.

(** [in.read(buf, n)]: the bytes stored, and the stream afterwards; a
    short read sets the fail bit, a failed stream reads nothing. *)
Definition read (n : Z) (s : ifstream) : list byte * ifstream :=
  if good s then
    let got := take (Z.to_nat n) (pending s) in
    (got, {| is_open := is_open s;
             pending := drop (Z.to_nat n) (pending s);
             good := bool_decide (len got = n) |})
  else ([], s).

(** Value of an unsigned integer from its little-endian bytes. *)
Fixpoint le_decode (bs : list byte) : Z :=
  match bs with
  | [] => 0
  | b :: bs' => Z.of_N (Byte.to_N b) + 256 * le_decode bs'
  end.

(** [data.resize(size)] followed by a read of [got] into
    [data.data()]: element [i] is made of bytes [i * w .. i * w + w) of
    the zero-filled storage overwritten by [got] from its start. *)
Definition elements (w : nat) (size : nat) (got : list byte) : list Z :=
  let storage := got ++ replicate (size * w - length got) Byte.x00 in
  (fun i => le_decode (take w (drop (i * w) storage))) <$> seq 0 size.

(** [streamsize] (signed 64-bit) conversion of a [size_t] byte count. *)
Definition to_streamsize (n : Z) : Z := wrap_signed 64 n.

(** [std::vector<T>::max_size()] for a [T] of [sizeof_T] bytes on a
    64-bit target: [PTRDIFF_MAX / sizeof(T)], that is 2^60 - 1 for
    [uint64_t]. *)
Definition max_size (sizeof_T : nat) : Z := (2 ^ 63 - 1) / Z.of_nat sizeof_T.

(** [load_data<T>(filename)] for an unsigned [T] of [sizeof_T] bytes.
    [data.resize(size)] throws [std::length_error] when [size] exceeds
    [max_size()], and nothing catches it; below that bound the vector is
    a list and the memory is taken to suffice. *)
Definition load_data (sizeof_T : nat) (fs : gmap string (list byte))
    (filename : string) : proc (list Z) :=
  let in0 := open fs filename in
  if negb (is_open in0) then
    (print_cerr [Str "unable to open "; Str filename] ;;;
     exit EXIT_FAILURE)%proc
  else
    let '(header, in1) := read 8 in0 in
    if bool_decide (length header = 8%nat) then
      let size := le_decode header in
      if decide (size <= max_size sizeof_T) then
        let '(got, _) :=
          read (to_streamsize (u64 (size * Z.of_nat sizeof_T))) in1 in
        ret (elements sizeof_T (Z.to_nat size) got)
      else
        (* [data.resize(size)] throws *)
        terminate
    else
      (* [size] is left (partly) uninitialised *)
      undefined.

End Loader.

(** ** Query workload and correctness tally ([pgm_query.cpp]) *)

Module PgmQuery.
Import Proc.

Definition NUM_LOOKUPS : Z := 10000000.

Definition dataset_name : string := "data/books_200M_uint64".

(** A uniform random bit generator such as [std::mt19937]: a state and
    the step that yields the next raw output. *)
Class URBG (G : Type) : Type := next : G -> Z * G.

(** A generator that replays a recorded sequence of raw outputs. *)
#[export] Instance replay : URBG (list Z) :=
  fun g => match g with
           | [] => (0, [])
           | raw :: g' => (raw, g')
           end.

(** [std::uniform_int_distribution<size_t> distribution(a, b)] applied
    to a generator: a value of the closed interval [a, b] (the C++
    standard fixes the interval; how the raw output is reduced to it
    is the library's business, here a remainder). *)
Definition uniform_int_distribution `{URBG G} (a b : Z) (g : G) : Z * G :=
  let '(raw, g') := next g in (a + raw mod (b - a + 1), g').

(** The body of the [for] loop of [generate_queries], [n] times. *)
Fixpoint generate_loop `{URBG G} (dataset : list Z) (n : nat) (g : G)
    (results : list (Z * Z)) : access (list (Z * Z)) :=
  match n with
  | O => Mem.ret results
  | S n' =>
      let '(idx, g') := uniform_int_distribution 0 (len dataset) g in
      key <- deref dataset idx ;;
      correct_lb <- std_lower_bound dataset 0 (len dataset) key ;;
      generate_loop dataset n' g' (results ++ [(key, correct_lb)])
  end.

(** [generate_queries(dataset)]; [g] is the seeded generator
    [std::mt19937 g(42)]. *)
Definition generate_queries `{URBG G} (g : G) (dataset : list Z)
  : access (list (Z * Z)) :=
  generate_loop dataset (Z.to_nat NUM_LOOKUPS) g [].

(** What [index.search(x)] returns. *)
Record ApproxPos : Type := { pos : Z; lo : Z; hi : Z }.

(** [pred_correct] and [pred_incorrect], captured by reference. *)
Record tally : Type := { pred_correct : Z; pred_incorrect : Z }.

(** The range-[for] loop of [query_time]: [cnt += f(q.first, q.second)]
    for every query, [cnt] being a [uint64_t].  [f] threads the state it
    captured by reference. *)
Fixpoint query_loop {S : Type} (f : Z -> Z -> S -> proc (Z * S))
    (queries : list (Z * Z)) (cnt : Z) (st : S) : proc (Z * S) :=
  match queries with
  | [] => ret (cnt, st)
  | q :: queries' =>
      (r <- f q.1 q.2 st ;;
       query_loop f queries' (u64 (cnt + r.1)) r.2)%proc
  end.

(** [query_time(f, queries)]; [elapsed] is the measured [stop - start]
    in nanoseconds.  Returns the mean per query, the accumulated [cnt]
    and the state; the division is undefined on an empty workload. *)
Definition query_time {S : Type} (f : Z -> Z -> S -> proc (Z * S))
    (queries : list (Z * Z)) (elapsed : Z) (st : S) : proc (Z * Z * S) :=
  (r <- query_loop f queries 0 st ;;
   if decide (len queries = 0) then undefined
   else ret (u64 elapsed / len queries, r.1, r.2))%proc.

(** The lambda of [measure_perfomance] (built with [BRANCHLESS]). *)
Definition lookup (search : Z -> ApproxPos) (dataset : list Z)
    (x correct_idx : Z) (st : tally) : proc (Z * tally) :=
  let approx_range := search x in
  (lb_position <-
     lift (lower_bound_branchless dataset (lo approx_range)
             (hi approx_range) x) ;;
   if decide (lb_position <> correct_idx) then
     print_cout [Str "PGM returned incorrect result for lookup key ";
                 Num x] ;;;
     print_cout [Str "Start: "; Num (lo approx_range);
                 Str " Stop: "; Num (hi approx_range);
                 Str " Correct: "; Num correct_idx] ;;;
     ret (lb_position,
          {| pred_correct := pred_correct st;
             pred_incorrect := int_add (pred_incorrect st) 1 |})
   else
     ret (lb_position,
          {| pred_correct := int_add (pred_correct st) 1;
             pred_incorrect := pred_incorrect st |}))%proc.

(** The position the lambda computes for the key [x]. *)
Definition refined (search : Z -> ApproxPos) (D : list Z) (x : Z)
  : option Z :=
  result (lower_bound_branchless D (lo (search x)) (hi (search x)) x).

(** The queries of a workload whose refined position differs from the
    expected one, and those where the two agree. *)
Definition mismatches (search : Z -> ApproxPos) (D : list Z)
    (queries : list (Z * Z)) : list (Z * Z) :=
  filter (fun q => refined search D q.1 <> Some q.2) queries.

Definition matches (search : Z -> ApproxPos) (D : list Z)
    (queries : list (Z * Z)) : list (Z * Z) :=
  filter (fun q => refined search D q.1 = Some q.2) queries.

(** [measure_perfomance()].  [PGMIndex dataset] stands for the index
    built over the dataset (an external collaborator), given by its
    [search]. *)
Definition measure_perfomance `{URBG G} (fs : gmap string (list byte))
    (g : G) (PGMIndex : list Z -> Z -> ApproxPos) (elapsed : Z)
  : proc tally :=
  let st := {| pred_correct := 0; pred_incorrect := 0 |} in
  (dataset <- Loader.load_data 8 fs dataset_name ;;
   queries <- lift (generate_queries g dataset) ;;
   let index := PGMIndex dataset in
   r <- query_time (lookup index dataset) queries elapsed st ;;
   let '(pgm_ns, _, st') := r in
   print_cout [Str dataset_name; Str ":"; Num pgm_ns] ;;;
   print_cout [Str "Correct: "; Num (pred_correct st');
               Str " - Incorrect: "; Num (pred_incorrect st')] ;;;
   ret st')%proc.

Definition main `{URBG G} (fs : gmap string (list byte)) (g : G)
    (PGMIndex : list Z -> Z -> ApproxPos) (elapsed : Z) : proc Z :=
  (print_cout [Str "Dataset - PGM"] ;;;
   print_cout [Str "Books"] ;;;
   measure_perfomance fs g PGMIndex elapsed ;;;
   ret 0)%proc.

End PgmQuery.

(** ** The dynamic index and its drivers ([playground.cpp]) *)

Module DynamicPGMIndex.

(** The operations the drivers call on [pgm::DynamicPGMIndex<K, V>].
    [find] gives the value stored under the key, [None] standing for
    the end-of-collection marker [end()]. *)
Class Index (Ix : Type) : Type := {
  empty : Ix;
  insert_or_assign : Z -> Z -> Ix -> Ix;
  erase : Z -> Ix -> Ix;
  find : Z -> Ix -> option Z;
  size : Ix -> Z;
  index_size_in_bytes : Ix -> Z
}.

(** Modelled from the spec: the container [pgm::DynamicPGMIndex] of
    [pgm/pgm_index_dynamic.hpp], which is not among the sources.  The
    external-interface section describes it as a map from keys to
    values: [insert_or_assign] inserts a new key or updates the value
    of an existing one, [erase] removes a key if present and is a no-op
    otherwise, [find] locates a present key and gives the end marker
    otherwise, [size] counts the stored elements.  The spec gives no
    formula for the memory footprint; it is a parameter. *)
Definition spec_index (footprint : gmap Z Z -> Z) : Index (gmap Z Z) := {|
  empty := ∅;
  insert_or_assign := fun key value m => <[key := value]> m;
  erase := fun key m => delete key m;
  find := fun key m => m !! key;
  size := fun m => Z.of_nat (base.size m);
  index_size_in_bytes := footprint
|}.

(** An index that honours the map contract except that its [size]
    forgets the elements: a collaborator whose reported cardinality
    diverges from the number of inserted samples. *)
Definition miscounting_index : Index (gmap Z Z) := {|
  empty := ∅;
  insert_or_assign := fun key value m => <[key := value]> m;
  erase := fun key m => delete key m;
  find := fun key m => m !! key;
  size := fun _ => 0;
  index_size_in_bytes := fun _ => 0
|}.

End DynamicPGMIndex.

(** The first program of [playground.cpp]. *)
Module Playground.
Import Proc DynamicPGMIndex.

(** [main()] up to the report of the index size; the range listing
    that follows goes through [lower_bound], which the index contract
    does not describe.  Returns the index after the last statement. *)
Definition main `{Index Ix} : proc Ix :=
  let dynamic_pgm := empty in
  let dynamic_pgm := insert_or_assign 4 8 dynamic_pgm in
  let dynamic_pgm := erase 4 dynamic_pgm in
  (print_cout [Str "find(4) = ";
               Str (match find 4 dynamic_pgm with
                    | None => "not found"
                    | Some _ => "found"
                    end)] ;;;
   print_cout [Str "Number of elements in container: ";
               Num (size dynamic_pgm)] ;;;
   print_cout [Str "Index size in bytes: ";
               Num (index_size_in_bytes dynamic_pgm)] ;;;
   ret dynamic_pgm)%proc.

End Playground.

(** The second program of [playground.cpp], the dynamic workload. *)
Module UpdateBooks.
Import Proc DynamicPGMIndex.

Definition dataset_name : string := "data/books_200M_uint64".

(** The insertion loop over [data]. *)
Fixpoint bulk_insert `{Index Ix} (data : list Z) (dynamic_pgm : Ix) : Ix :=
  match data with
  | [] => dynamic_pgm
  | key :: data' => bulk_insert data' (insert_or_assign key 1 dynamic_pgm)
  end.

(** The erase loop over [data] with its [int counter]. *)
Fixpoint half_delete `{Index Ix} (data : list Z) (counter : Z)
    (dynamic_pgm : Ix) : Ix :=
  match data with
  | [] => dynamic_pgm
  | key :: data' =>
      let dynamic_pgm :=
        if Z.rem counter 2 =? 0 then erase key dynamic_pgm
        else dynamic_pgm in
      half_delete data' (int_add counter 1) dynamic_pgm
  end.

(** The two lookup loops call [find] and drop what it returns. *)
Definition find_all `{Index Ix} (keys : list Z) (dynamic_pgm : Ix)
  : list (option Z) :=
  (fun key => find key dynamic_pgm) <$> keys.

(** The sampling loop of [main()] seen from outside: it fills the set
    until it holds [nelements] samples and then writes one line to
    standard error.  The random log-normal draws are not modelled;
    [data], the sorted vector made from the set, is an input, and
    [nelements] is its length. *)
Definition generate_samples (data : list Z) : proc unit :=
  if decide (0 < len data)
  then print_cerr [Str "Generated "; Num (len data)]
  else ret tt.

(** [main()].  [data] is the vector of generated samples, unique and
    sorted ascending; [samples_never_seen_before] holds the keys of the
    last loop.  Returns the exit status and the index at the end of the
    run. *)
Definition main `{Index Ix} (fs : gmap string (list byte))
    (data samples_never_seen_before : list Z) : proc (Z * Ix) :=
  (dataset <- Loader.load_data 8 fs dataset_name ;;
   generate_samples data ;;;
   let dynamic_pgm := empty in
   print_cout [Str "Inserting data"] ;;;
   let dynamic_pgm := bulk_insert data dynamic_pgm in
   print_cout [Str "Number of elements in container: ";
               Num (size dynamic_pgm)] ;;;
   print_cout [Str "Index size in bytes: ";
               Num (index_size_in_bytes dynamic_pgm)] ;;;
   print_cout [Str "Deleting half of dataset"] ;;;
   let dynamic_pgm := half_delete data 0 dynamic_pgm in
   let _ := find_all data dynamic_pgm in
   let _ := find_all samples_never_seen_before dynamic_pgm in
   ret (0, dynamic_pgm))%proc.

End UpdateBooks.

(** ** Notions used to state further properties *)

(** Number of element reads, and of prefetch hints, in a log. *)
Fixpoint read_count (t : list event) : Z :=
  match t with
  | [] => 0
  | Read _ :: t' => 1 + read_count t'
  | Prefetch _ :: t' => read_count t'
  end.

Fixpoint prefetch_count (t : list event) : Z :=
  match t with
  | [] => 0
  | Read _ :: t' => prefetch_count t'
  | Prefetch _ :: t' => 1 + prefetch_count t'
  end.

(** The indices that [n] successive calls of a distribution over [a, b]
    hand out. *)
Fixpoint draws `{PgmQuery.URBG G} (a b : Z) (n : nat) (g : G) : list Z :=
  match n with
  | O => []
  | S n' =>
      let '(idx, g') := PgmQuery.uniform_int_distribution a b g in
      idx :: draws a b n' g'
  end.

(** The [w] little-endian bytes of an unsigned integer. *)
Fixpoint le_encode (w : nat) (x : Z) : list byte :=
  match w with
  | O => []
  | S w' =>
      default Byte.x00 (Byte.of_N (Z.to_N (x mod 256)))
      :: le_encode w' (x / 256)
  end.

(** The dataset file format: the element count in 8 bytes, then the
    elements, 8 bytes each.  [dataset_file count present] declares
    [count] elements and holds the elements [present]. *)
Definition dataset_file (count : Z) (present : list Z) : list byte :=
  le_encode 8 count ++ concat (le_encode 8 <$> present).

(** The elements at the even ordinal positions 0, 2, 4, ... of a list,
    and those at the odd positions. *)
Fixpoint even_positions {A} (l : list A) : list A :=
  match l with
  | [] => []
  | x :: l' =>
      x :: match l' with
           | [] => []
           | _ :: l'' => even_positions l''
           end
  end.

Definition odd_positions {A} (l : list A) : list A := even_positions (tail l).

(** An index description that answers every key with the whole
    dataset. *)
Definition whole_dataset (D : list Z) (x : Z) : PgmQuery.ApproxPos :=
  {| PgmQuery.pos := 0; PgmQuery.lo := 0; PgmQuery.hi := len D |}.

(** ** A running example: the dataset of the example scenarios *)

Definition books : list Z := [1; 3; 3; 7; 9].

(** An index that answers every key with the whole of [books]. *)
Definition whole_books (x : Z) : PgmQuery.ApproxPos :=
  {| PgmQuery.pos := 0; PgmQuery.lo := 0; PgmQuery.hi := 5 |}.

(** A dataset file with the header 2 and the keys 7 and 9. *)
Definition two_keys_file : list byte :=
  [x02; x00; x00; x00; x00; x00; x00; x00;
   x07; x00; x00; x00; x00; x00; x00; x00;
   x09; x00; x00; x00; x00; x00; x00; x00]%byte.

(** A file that declares 258 elements (header bytes 02 01 00 ...) and
    holds only the keys 7 and 9. *)
Definition short_file_258 : list byte :=
  [x02; x01; x00; x00; x00; x00; x00; x00;
   x07; x00; x00; x00; x00; x00; x00; x00;
   x09; x00; x00; x00; x00; x00; x00; x00]%byte.

(** A 24-byte file whose header declares 2^61 elements. *)
Definition huge_header_file : list byte :=
  [x00; x00; x00; x00; x00; x00; x00; x20;
   x07; x00; x00; x00; x00; x00; x00; x00;
   x09; x00; x00; x00; x00; x00; x00; x00]%byte.

Ltac solve_sorted := repeat first [constructor | lia].

(** * Properties *)

(** ** The access monad *)

Section AccessLaws.
Context {A B : Type}.
Implicit Types (m : access A) (k : A -> access B).

Lemma result_bind m k :
  result (bind m k) = match result m with
                      | Some a => result (k a)
                      | None => None
                      end.
Proof. unfold result, bind. destruct m as [t [a|]]; reflexivity. Qed.

Lemma trace_bind m k :
  trace (bind m k) = match result m with
                     | Some a => trace m ++ trace (k a)
                     | None => trace m
                     end.
Proof. unfold trace, result, bind. destruct m as [t [a|]]; reflexivity. Qed.

Lemma bind_Some m k a :
  result m = Some a ->
  bind m k = (trace m ++ trace (k a), result (k a)).
Proof. unfold result, trace, bind. destruct m as [t [a'|]]; simpl; congruence. Qed.

Lemma trace_bind_ret a k : trace (bind (Mem.ret a) k) = trace (k a).
Proof. reflexivity. Qed.

Lemma result_bind_ret a k : result (bind (Mem.ret a) k) = result (k a).
Proof. reflexivity. Qed.

Lemma bind_prefetch i (k : unit -> access B) :
  bind (prefetch i) k = (Prefetch i :: trace (k tt), result (k tt)).
Proof. reflexivity. Qed.

Lemma bind_deref (D : list Z) i x (k : Z -> access B) :
  deref D i = ([Read i], Some x) ->
  bind (deref D i) k = (Read i :: trace (k x), result (k x)).
Proof. intros ->. reflexivity. Qed.

End AccessLaws.

Lemma deref_in_range (D : list Z) i :
  0 <= i < len D ->
  exists x, D !! Z.to_nat i = Some x /\ deref D i = ([Read i], Some x).
Proof.
  intros Hi. destruct (lookup_lt_is_Some_2 D (Z.to_nat i)) as [x Hx]; [lia|].
  exists x. split; [done|]. unfold deref. rewrite decide_True by lia. by rewrite Hx.
Qed.

Lemma deref_past_end (D : list Z) i :
  len D <= i -> deref D i = ([Read i], None).
Proof.
  intros Hi. unfold deref. rewrite decide_True by lia.
  rewrite lookup_ge_None_2 by lia. reflexivity.
Qed.

(** ** Sorted datasets *)

Lemma sorted_lookup_le (D : list Z) (i j : nat) x y :
  Sorted Z.le D -> (i <= j)%nat -> D !! i = Some x -> D !! j = Some y -> x <= y.
Proof.
  intros HS%Sorted_StronglySorted; [|intros ???; lia].
  revert i j. induction HS as [|a l HS IH Hall]; intros i j Hij Hi Hj; [done|].
  destruct i as [|i], j as [|j]; simpl in *.
  - assert (x = y) by congruence. lia.
  - assert (a = x) as -> by congruence. rewrite Forall_forall in Hall.
    eapply Hall, list_elem_of_lookup_2; eauto.
  - lia.
  - eapply IH; [|eauto..]. lia.
Qed.

(** ** Lower-bound positions *)

Lemma partition_point_unique (D : list Z) key lo hi q q' :
  0 <= lo -> hi <= len D ->
  partition_point D key lo hi q -> partition_point D key lo hi q' -> q = q'.
Proof.
  intros Hlo Hhi (Hq & Hlt & Hge) (Hq' & Hlt' & Hge').
  destruct (Z.lt_trichotomy q q') as [Hc|[Hc|Hc]]; [|done|].
  - destruct (deref_in_range D q) as (x & Hx & _); [lia|].
    pose proof (Hlt' q x ltac:(lia) Hx). pose proof (Hge q x ltac:(lia) Hx). lia.
  - destruct (deref_in_range D q') as (x & Hx & _); [lia|].
    pose proof (Hlt q' x ltac:(lia) Hx). pose proof (Hge' q' x ltac:(lia) Hx). lia.
Qed.

Lemma partition_point_window (D : list Z) key lo hi p :
  partition_point D key 0 (len D) p ->
  0 <= lo <= p -> p <= hi <= len D ->
  partition_point D key lo hi p.
Proof.
  intros (Hp & Hlt & Hge) Hlo Hhi. split; [lia|].
  split; intros i x Hi Hx; [eapply Hlt|eapply Hge]; eauto; lia.
Qed.

Lemma lower_bound_position_range (D : list Z) key :
  0 <= lower_bound_position D key <= len D.
Proof.
  unfold lower_bound_position.
  destruct (list_find _ D) as [[i x]|] eqn:Hf; [|lia].
  apply list_find_Some in Hf as (Hi%lookup_lt_Some & _). lia.
Qed.

Lemma lower_bound_position_partition (D : list Z) key :
  Sorted Z.le D ->
  partition_point D key 0 (len D) (lower_bound_position D key).
Proof.
  intros HS. split; [apply lower_bound_position_range|].
  unfold lower_bound_position.
  destruct (list_find _ D) as [[i x]|] eqn:Hf.
  - apply list_find_Some in Hf as (Hi & Hx & Hbefore). split.
    + intros j y Hj Hy. specialize (Hbefore (Z.to_nat j) y Hy ltac:(lia)). lia.
    + intros j y Hj Hy.
      pose proof (sorted_lookup_le D i (Z.to_nat j) x y HS ltac:(lia) Hi Hy). lia.
  - rewrite list_find_None, Forall_forall in Hf. split.
    + intros j y Hj Hy. apply list_elem_of_lookup_2 in Hy. specialize (Hf y Hy). simpl in Hf. lia.
    + intros j y Hj Hy. apply lookup_lt_Some in Hy. lia.
Qed.

(** ** The halving loop of the branchless refiner *)

Lemma branchless_loop_step (D : list Z) value first n :
  1 < n ->
  branchless_loop D value first n =
    (prefetch (first + Z.quot (Z.quot n 2) 2) ;;;
     prefetch (first + Z.quot n 2 + Z.quot (Z.quot n 2) 2) ;;;
     x <- deref D (first + Z.quot n 2) ;;
     branchless_loop D value
       (if comp x value then first + Z.quot n 2 else first) (n - Z.quot n 2)).
Proof.
  intros Hn. rewrite branchless_loop_equation_1.
  destruct (decide (1 < n)); [reflexivity|lia].
Qed.

Lemma branchless_loop_done (D : list Z) value first n :
  n <= 1 -> branchless_loop D value first n = ret first.
Proof.
  intros Hn. rewrite branchless_loop_equation_1.
  destruct (decide (1 < n)); [lia|reflexivity].
Qed.

Lemma half_bounds n :
  1 < n ->
  1 <= Z.quot n 2 /\ 2 * Z.quot n 2 <= n /\
  0 <= Z.quot (Z.quot n 2) 2 /\ 2 * Z.quot (Z.quot n 2) 2 <= Z.quot n 2.
Proof.
  intros Hn. rewrite !Z.quot_div_nonneg by (try apply Z.div_pos; lia).
  pose proof (Z.div_mod n 2). pose proof (Z.mod_pos_bound n 2).
  pose proof (Z.div_mod (n / 2) 2). pose proof (Z.mod_pos_bound (n / 2) 2).
  lia.
Qed.

Lemma within_weaken lo hi lo' hi' t :
  lo' <= lo -> hi <= hi' -> within lo hi t -> within lo' hi' t.
Proof.
  intros Hlo Hhi Ht. eapply Forall_impl; [exact Ht|].
  intros e He. simpl in He. lia.
Qed.

Lemma branchless_loop_bounds (D : list Z) value n :
  forall first,
    1 <= n -> 0 <= first -> first + n <= len D ->
    exists f,
      result (branchless_loop D value first n) = Some f /\
      first <= f < first + n /\
      within first (first + n) (trace (branchless_loop D value first n)).
Proof.
  induction n as [n IH] using (well_founded_induction (Z.lt_wf 0)).
  intros first Hn Hfirst Hlast.
  destruct (decide (1 < n)) as [Hgt|Hle].
  - rewrite branchless_loop_step by done.
    destruct (half_bounds n Hgt) as (Hh1 & Hh2 & Hq1 & Hq2).
    set (half := Z.quot n 2) in *. set (quarter := Z.quot half 2) in *.
    destruct (deref_in_range D (first + half)) as (x & _ & Hx); [lia|].
    set (first' := if comp x value then first + half else first).
    assert (first <= first' /\ first' + (n - half) <= first + n) as [Hf1 Hf2]
      by (subst first'; destruct (comp x value); lia).
    destruct (IH (n - half) ltac:(lia) first') as (f & Hf & Hrange & Htrace);
      [lia..|].
    exists f. rewrite !bind_prefetch, (bind_deref _ _ x) by done.
    cbn [trace result fst snd]. fold first'. split; [done|]. split; [lia|].
    unfold within. repeat (apply Forall_cons; split; [simpl; lia|]).
    eapply within_weaken; [..|exact Htrace]; lia.
  - rewrite branchless_loop_done by lia. exists first. simpl.
    split; [done|]. split; [lia|]. constructor.
Qed.

Lemma branchless_loop_sorted (D : list Z) value n :
  Sorted Z.le D ->
  forall first,
    1 <= n -> 0 <= first -> first + n <= len D ->
    exists f,
      result (branchless_loop D value first n) = Some f /\
      first <= f < first + n /\
      (forall i x, first <= i < f -> D !! Z.to_nat i = Some x -> x < value) /\
      (forall i x, f < i < first + n -> D !! Z.to_nat i = Some x -> value <= x).
Proof.
  intros HS. induction n as [n IH] using (well_founded_induction (Z.lt_wf 0)).
  intros first Hn Hfirst Hlast.
  destruct (decide (1 < n)) as [Hgt|Hle].
  - rewrite branchless_loop_step by done.
    destruct (half_bounds n Hgt) as (Hh1 & Hh2 & _).
    set (half := Z.quot n 2) in *.
    destruct (deref_in_range D (first + half)) as (x & Hmid & Hx); [lia|].
    rewrite !bind_prefetch, (bind_deref _ _ x) by done. cbn [result snd].
    unfold comp. destruct (Z.ltb_spec x value) as [Hlt|Hge].
    + destruct (IH (n - half) ltac:(lia) (first + half))
        as (f & Hf & Hrange & Hbelow & Habove); [lia..|].
      exists f. split; [done|]. split; [lia|]. split.
      * intros i y Hi Hy. destruct (decide (i < first + half)).
        -- pose proof (sorted_lookup_le D (Z.to_nat i) (Z.to_nat (first + half))
                         y x HS ltac:(lia) Hy Hmid). lia.
        -- eapply Hbelow; [|done]. lia.
      * intros i y Hi Hy. eapply Habove; [|done]. lia.
    + destruct (IH (n - half) ltac:(lia) first)
        as (f & Hf & Hrange & Hbelow & Habove); [lia..|].
      exists f. split; [done|]. split; [lia|]. split; [done|].
      intros i y Hi Hy. destruct (decide (i < first + (n - half))).
      * eapply Habove; [|done]. lia.
      * pose proof (sorted_lookup_le D (Z.to_nat (first + half)) (Z.to_nat i)
                      x y HS ltac:(lia) Hmid Hy). lia.
  - rewrite branchless_loop_done by lia. exists first. simpl.
    split; [done|]. split; [lia|]. split; intros i x Hi; lia.
Qed.

(** On a non-empty window of a sorted dataset the refiner returns the
    partition point of the window. *)
Lemma lower_bound_branchless_partition (D : list Z) value lo hi :
  Sorted Z.le D -> 0 <= lo -> lo < hi -> hi <= len D ->
  exists q,
    result (lower_bound_branchless D lo hi value) = Some q /\
    partition_point D value lo hi q.
Proof.
  intros HS Hlo Hlt Hhi. unfold lower_bound_branchless.
  destruct (branchless_loop_sorted D value (hi - lo) HS lo)
    as (f & Hf & Hrange & Hbelow & Habove); [lia..|].
  replace (lo + (hi - lo)) with hi in * by lia.
  destruct (deref_in_range D f) as (x & Hfx & Hx); [lia|].
  rewrite result_bind, Hf, (bind_deref _ _ x) by done. cbn [result snd].
  eexists. split; [reflexivity|]. unfold comp.
  destruct (Z.ltb_spec x value) as [Hc|Hc]; simpl.
  - split; [lia|]. split.
    + intros i y Hi Hy. destruct (decide (i = f)) as [->|].
      * congruence.
      * eapply Hbelow; [|done]. lia.
    + intros i y Hi Hy. eapply Habove; [|done]. lia.
  - rewrite Z.add_0_r. split; [lia|]. split; [done|].
    intros i y Hi Hy. destruct (decide (i = f)) as [->|].
    + congruence.
    + eapply Habove; [|done]. lia.
Qed.

(** The accesses and the result of the refiner stay inside a non-empty
    window, sorted or not. *)
Lemma lower_bound_branchless_bounds (D : list Z) value lo hi :
  0 <= lo -> lo < hi -> hi <= len D ->
  within lo hi (trace (lower_bound_branchless D lo hi value)) /\
  exists r, result (lower_bound_branchless D lo hi value) = Some r /\
            lo <= r <= hi.
Proof.
  intros Hlo Hlt Hhi. unfold lower_bound_branchless.
  destruct (branchless_loop_bounds D value (hi - lo) lo)
    as (f & Hf & Hrange & Htrace); [lia..|].
  replace (lo + (hi - lo)) with hi in * by lia.
  destruct (deref_in_range D f) as (x & Hfx & Hx); [lia|].
  rewrite trace_bind, result_bind, Hf, (bind_deref _ _ x) by done.
  cbn [result trace fst snd]. split.
  - apply Forall_app. split; [done|]. apply Forall_cons. split; [simpl; lia|].
    constructor.
  - eexists. split; [reflexivity|]. destruct (comp x value); simpl; lia.
Qed.

(** ** The standard branching search *)

Lemma std_lower_bound_loop_step (D : list Z) value first n :
  0 < n ->
  std_lower_bound_loop D value first n =
    (x <- deref D (first + Z.shiftr n 1) ;;
     if comp x value
     then std_lower_bound_loop D value (first + Z.shiftr n 1 + 1)
            (n - Z.shiftr n 1 - 1)
     else std_lower_bound_loop D value first (Z.shiftr n 1)).
Proof.
  intros Hn. rewrite std_lower_bound_loop_equation_1.
  destruct (decide (0 < n)); [reflexivity|lia].
Qed.

Lemma std_lower_bound_loop_done (D : list Z) value first n :
  n <= 0 -> std_lower_bound_loop D value first n = ret first.
Proof.
  intros Hn. rewrite std_lower_bound_loop_equation_1.
  destruct (decide (0 < n)); [lia|reflexivity].
Qed.

Lemma std_lower_bound_loop_sorted (D : list Z) value n :
  Sorted Z.le D ->
  forall first,
    0 <= n -> 0 <= first -> first + n <= len D ->
    exists q,
      result (std_lower_bound_loop D value first n) = Some q /\
      partition_point D value first (first + n) q.
Proof.
  intros HS. induction n as [n IH] using (well_founded_induction (Z.lt_wf 0)).
  intros first Hn Hfirst Hlast.
  destruct (decide (0 < n)) as [Hgt|Hle].
  - rewrite std_lower_bound_loop_step by done.
    assert (0 <= Z.shiftr n 1 < n) as Hhalf.
    { rewrite Z.shiftr_div_pow2 by lia. change (2 ^ 1) with 2.
      pose proof (Z.div_lt n 2). pose proof (Z.div_pos n 2). lia. }
    set (half := Z.shiftr n 1) in *.
    destruct (deref_in_range D (first + half)) as (x & Hmid & Hx); [lia|].
    rewrite (bind_deref _ _ x) by done. cbn [result snd].
    unfold comp. destruct (Z.ltb_spec x value) as [Hlt|Hge].
    + destruct (IH (n - half - 1) ltac:(lia) (first + half + 1))
        as (q & Hq & Hrange & Hbelow & Habove); [lia..|].
      exists q. split; [done|]. split; [lia|]. split.
      * intros i y Hi Hy. destruct (decide (i <= first + half)).
        -- pose proof (sorted_lookup_le D (Z.to_nat i) (Z.to_nat (first + half))
                         y x HS ltac:(lia) Hy Hmid). lia.
        -- eapply Hbelow; [|done]. lia.
      * intros i y Hi Hy. eapply Habove; [|done]. lia.
    + destruct (IH half ltac:(lia) first)
        as (q & Hq & Hrange & Hbelow & Habove); [lia..|].
      exists q. split; [done|]. split; [lia|]. split; [done|].
      intros i y Hi Hy. destruct (decide (i < first + half)).
      * eapply Habove; [|done]. lia.
      * pose proof (sorted_lookup_le D (Z.to_nat (first + half)) (Z.to_nat i)
                      x y HS ltac:(lia) Hmid Hy). lia.
  - rewrite std_lower_bound_loop_done by lia. exists first. simpl.
    split; [done|]. split; [lia|]. split; intros i x Hi; lia.
Qed.

Lemma std_lower_bound_partition (D : list Z) value lo hi :
  Sorted Z.le D -> 0 <= lo -> lo <= hi -> hi <= len D ->
  exists q,
    result (std_lower_bound D lo hi value) = Some q /\
    partition_point D value lo hi q.
Proof.
  intros HS Hlo Hle Hhi. unfold std_lower_bound.
  destruct (std_lower_bound_loop_sorted D value (hi - lo) HS lo)
    as (q & Hq & Hpp); [lia..|].
  replace (lo + (hi - lo)) with hi in Hpp by lia. eauto.
Qed.

(** An unrestricted binary search over a sorted dataset returns the
    lower-bound position. *)
Lemma std_lower_bound_full (D : list Z) value :
  Sorted Z.le D ->
  result (std_lower_bound D 0 (len D) value)
  = Some (lower_bound_position D value).
Proof.
  intros HS.
  destruct (std_lower_bound_partition D value 0 (len D) HS)
    as (q & Hq & Hpp); [lia..|].
  rewrite Hq. f_equal.
  eapply partition_point_unique; [..|exact Hpp|]; [lia..|].
  by apply lower_bound_position_partition.
Qed.

(** ** The refiner against the lower-bound position *)

Lemma books_sorted : Sorted Z.le books.
Proof. unfold books. solve_sorted. Qed.

(** On a non-empty window that holds the lower-bound position of the
    key, possibly as its upper end, the refiner returns that position. *)
Lemma lower_bound_branchless_exact (D : list Z) (k lo hi : Z) :
  Sorted Z.le D ->
  0 <= lo -> lo < hi -> hi <= len D ->
  lo <= lower_bound_position D k <= hi ->
  result (lower_bound_branchless D lo hi k) = Some (lower_bound_position D k).
Proof.
  intros HS Hlo Hlt Hhi Hp.
  destruct (lower_bound_branchless_partition D k lo hi HS)
    as (q & Hq & Hpp); [lia..|].
  rewrite Hq. f_equal.
  eapply partition_point_unique; [..|exact Hpp|]; [lia..|].
  apply partition_point_window; [|lia..].
  by apply lower_bound_position_partition.
Qed.

(** C2: over a sorted dataset (ties allowed), for every key and every
    range [lo, hi) with 0 <= lo <= hi <= len(D) that contains the true
    lower-bound position of the key, the branchless refiner run on the
    subrange returns exactly that position: the index of the first
    element not less than the key, which is also what the unrestricted
    binary search over the whole dataset returns. *)
Theorem branchless_refiner_exact (D : list Z) (k lo hi : Z) :
  Sorted Z.le D ->
  0 <= lo -> lo <= hi -> hi <= len D ->
  lo <= lower_bound_position D k < hi ->
  result (lower_bound_branchless D lo hi k) = Some (lower_bound_position D k)
  /\ result (lower_bound_branchless D lo hi k)
     = result (std_lower_bound D 0 (len D) k).
Proof.
  intros HS Hlo Hle Hhi Hp.
  rewrite lower_bound_branchless_exact by (done || lia).
  split; [done|]. by rewrite std_lower_bound_full.
Qed.

Lemma branchless_refiner_exact_witness :
  Sorted Z.le books /\
  1 <= lower_bound_position books 3 < 4 /\
  result (lower_bound_branchless books 1 4 3) = Some 1.
Proof.
  split; [unfold books; solve_sorted|].
  split; [vm_compute; split; congruence|].
  change (Some 1) with (Some (lower_bound_position books 3)).
  apply (branchless_refiner_exact books 3 1 4).
  - unfold books; solve_sorted.
  - lia.
  - lia.
  - vm_compute. congruence.
  - vm_compute. split; congruence.
Defined.

(** C3, as amended: for every range [lo, hi) with hi - lo <= 1 whose
    [lo] is a valid index of the dataset, the branchless refiner takes no
    halving step and makes a single element read, at [lo]; it returns
    [lo] when the element there is not less than the key and [lo + 1]
    when it is less.  In particular it returns [lo] whenever the dataset
    is sorted and the range contains the lower-bound position of the
    key. *)
Theorem branchless_degenerate_window (D : list Z) (k lo hi x : Z) :
  0 <= lo -> lo <= hi -> hi <= len D -> hi - lo <= 1 ->
  D !! Z.to_nat lo = Some x ->
  lower_bound_branchless D lo hi k
  = ([Read lo], Some (if decide (x < k) then lo + 1 else lo))
  /\ (Sorted Z.le D -> lo <= lower_bound_position D k < hi ->
      result (lower_bound_branchless D lo hi k) = Some lo).
Proof.
  intros Hlo Hle Hhi Hn Hx. split.
  - unfold lower_bound_branchless.
    rewrite branchless_loop_done by lia.
    unfold Mem.bind, Mem.ret, deref, comp. simpl.
    rewrite decide_True by lia. rewrite Hx. simpl. f_equal. f_equal.
    destruct (Z.ltb_spec x k);
      [rewrite decide_True by lia|rewrite decide_False by lia]; simpl; lia.
  - intros HS Hp. rewrite lower_bound_branchless_exact by (done || lia).
    f_equal. lia.
Qed.

Lemma branchless_degenerate_window_witness :
  lower_bound_branchless books 0 1 3 = ([Read 0], Some 1)
  /\ lower_bound_branchless books 1 1 3 = ([Read 1], Some 1)
  /\ result (lower_bound_branchless books 1 2 3) = Some 1.
Proof.
  split; [|split].
  - apply (branchless_degenerate_window books 3 0 1 1);
      [lia | lia | simpl; lia | lia | reflexivity].
  - apply (branchless_degenerate_window books 3 1 1 3);
      [lia | lia | simpl; lia | lia | reflexivity].
  - apply (branchless_degenerate_window books 3 1 2 3);
      [lia | lia | simpl; lia | lia | reflexivity | | ].
    + unfold books. solve_sorted.
    + vm_compute. split; congruence.
Defined.

(** C3 as worded fails, even over a sorted dataset and with the
    lower-bound position of the key at an end of the range: on the
    one-element window [0, 1) of [1; 3; 3; 7; 9] and the key 3, whose
    lower-bound position is 1, the refiner returns 1, not [lo = 0]. *)
Lemma branchless_degenerate_not_lo :
  ~ (forall (D : list Z) (k lo hi : Z),
        Sorted Z.le D ->
        0 <= lo -> lo <= hi -> hi <= len D -> hi - lo <= 1 ->
        lo <= lower_bound_position D k <= hi ->
        result (lower_bound_branchless D lo hi k) = Some lo).
Proof.
  intros H. specialize (H books 3 0 1 books_sorted).
  vm_compute in H.
  specialize (H ltac:(congruence) ltac:(congruence) ltac:(congruence)
                ltac:(congruence) ltac:(split; congruence)).
  congruence.
Qed.

(** C4, as amended: over a sorted dataset, for every non-empty window
    lo < hi within it and every key, [lower_bound_branchless] and
    [std::lower_bound] run on the window return the same position. *)
Theorem branchless_matches_std (D : list Z) (k lo hi : Z) :
  Sorted Z.le D ->
  0 <= lo -> lo < hi -> hi <= len D ->
  result (lower_bound_branchless D lo hi k)
  = result (std_lower_bound D lo hi k).
Proof.
  intros HS Hlo Hlt Hhi.
  destruct (lower_bound_branchless_partition D k lo hi HS)
    as (q & Hq & Hpp); [lia..|].
  destruct (std_lower_bound_partition D k lo hi HS)
    as (q' & Hq' & Hpp'); [lia..|].
  rewrite Hq, Hq'. f_equal. eapply partition_point_unique; eauto.
Qed.

Lemma branchless_matches_std_witness :
  result (lower_bound_branchless books 1 4 8)
  = result (std_lower_bound books 1 4 8).
Proof.
  apply (branchless_matches_std books 8 1 4);
    [unfold books; solve_sorted | lia | lia | simpl; lia].
Defined.

(** C4 as worded fails on an empty window: with lo = hi = 0 over
    [1; 3; 3; 7; 9] and the key 3, [std::lower_bound] returns 0 and the
    branchless search returns 1. *)
Lemma branchless_differs_on_empty_window :
  ~ (forall (D : list Z) (k lo hi : Z),
        Sorted Z.le D -> 0 <= lo -> lo <= hi -> hi <= len D ->
        result (lower_bound_branchless D lo hi k)
        = result (std_lower_bound D lo hi k)).
Proof.
  intros H. specialize (H books 3 0 0 books_sorted).
  vm_compute in H. specialize (H ltac:(congruence) ltac:(congruence)
                                 ltac:(congruence)).
  congruence.
Qed.

(** C10: on a non-empty window 0 <= lo < hi <= len(Dataset) every
    position the refiner reads (and every position it prefetches) lies in
    [lo, hi), and it returns a position in [lo, hi]; on an empty window
    the final step still reads the element at [lo], which is outside the
    window, and that read is out of bounds when [lo] is the length of the
    dataset. *)
Theorem branchless_refiner_bounds (D : list Z) (k lo hi : Z) :
  0 <= lo -> hi <= len D ->
  (lo < hi ->
   within lo hi (trace (lower_bound_branchless D lo hi k)) /\
   exists r, result (lower_bound_branchless D lo hi k) = Some r /\
             lo <= r <= hi) /\
  (lo = hi ->
   trace (lower_bound_branchless D lo hi k) = [Read lo] /\
   ~ within lo hi (trace (lower_bound_branchless D lo hi k)) /\
   (lo = len D -> result (lower_bound_branchless D lo hi k) = None)).
Proof.
  intros Hlo Hhi. split.
  - intros Hlt. by apply lower_bound_branchless_bounds.
  - intros <-. unfold lower_bound_branchless.
    rewrite branchless_loop_done by lia.
    rewrite trace_bind_ret, result_bind_ret, trace_bind, result_bind.
    assert (trace (deref D lo) = [Read lo]) as Ht by reflexivity.
    assert (forall x, trace (Mem.ret (A:=Z) x) = []) as Hr by reflexivity.
    split; [|split].
    + destruct (result (deref D lo)); rewrite Ht, ?Hr; reflexivity.
    + intros Hw.
      assert (within lo lo [Read lo]) as Hw'.
      { destruct (result (deref D lo)); rewrite Ht, ?Hr in Hw; exact Hw. }
      apply Forall_cons in Hw' as [Hpos _]. simpl in Hpos. lia.
    + intros Hend. rewrite deref_past_end by lia. reflexivity.
Qed.

Lemma branchless_refiner_bounds_witness :
  within 1 4 (trace (lower_bound_branchless books 1 4 8))
  /\ (exists r, result (lower_bound_branchless books 1 4 8) = Some r
                /\ 1 <= r <= 4)
  /\ result (lower_bound_branchless books 5 5 8) = None.
Proof.
  destruct (branchless_refiner_bounds books 8 1 4) as [Hin _];
    [lia | simpl; lia |].
  destruct (branchless_refiner_bounds books 8 5 5) as [_ Hout];
    [lia | simpl; lia |].
  destruct Hin as [Ht Hr]; [lia|].
  destruct Hout as (_ & _ & Hnone); [lia|].
  split; [exact Ht|]. split; [exact Hr|]. apply Hnone. reflexivity.
Defined.

(** ** Machine integers *)

Lemma wrap_signed_small x :
  - 2 ^ 31 <= x < 2 ^ 31 -> wrap_signed 32 x = x.
Proof.
  intros Hx. unfold wrap_signed. change (32 - 1) with 31.
  rewrite Z.mod_small; lia.
Qed.

Lemma wrap_signed_range x : - 2 ^ 31 <= wrap_signed 32 x < 2 ^ 31.
Proof.
  unfold wrap_signed. change (32 - 1) with 31.
  pose proof (Z.mod_pos_bound (x + 2 ^ 31) (2 ^ 32)). lia.
Qed.

Lemma wrap_signed_add x y :
  wrap_signed 32 (wrap_signed 32 x + y) = wrap_signed 32 (x + y).
Proof.
  unfold wrap_signed. f_equal.
  replace ((x + 2 ^ (32 - 1)) mod 2 ^ 32 - 2 ^ (32 - 1) + y + 2 ^ (32 - 1))
    with ((x + 2 ^ (32 - 1)) mod 2 ^ 32 + y) by lia.
  rewrite Zplus_mod_idemp_l. f_equal. lia.
Qed.

(** ** The correctness tally *)

Section Tally.
Import Proc PgmQuery.

Variable search : Z -> ApproxPos.
Variable D : list Z.

(** The index hands out non-empty windows inside the dataset. *)
Hypothesis search_in_bounds :
  forall x, 0 <= lo (search x) /\ lo (search x) < hi (search x)
            /\ hi (search x) <= len D.

Lemma refined_defined x : exists p, refined search D x = Some p.
Proof.
  destruct (search_in_bounds x) as (H0 & H1 & H2).
  destruct (lower_bound_branchless_bounds D x (lo (search x))
              (hi (search x)) H0 H1 H2) as (_ & r & Hr & _).
  by exists r.
Qed.

Lemma matches_mismatches queries :
  (length (matches search D queries) + length (mismatches search D queries))%nat
  = length queries.
Proof.
  unfold matches, mismatches. induction queries as [|q queries IH]; [done|].
  rewrite !filter_cons. destruct (decide (refined search D q.1 = Some q.2)).
  - rewrite decide_False by tauto. simpl. lia.
  - rewrite decide_True by done. simpl. lia.
Qed.

Lemma tally_cons_match q queries :
  refined search D q.1 = Some q.2 ->
  matches search D (q :: queries) = q :: matches search D queries /\
  mismatches search D (q :: queries) = mismatches search D queries.
Proof.
  intros He. unfold matches, mismatches. rewrite !filter_cons.
  destruct (decide (refined search D q.1 = Some q.2)); [|done].
  destruct (decide (refined search D q.1 <> Some q.2)); [done|]. by split.
Qed.

Lemma tally_cons_mismatch q queries :
  refined search D q.1 <> Some q.2 ->
  matches search D (q :: queries) = matches search D queries /\
  mismatches search D (q :: queries) = q :: mismatches search D queries.
Proof.
  intros He. unfold matches, mismatches. rewrite !filter_cons.
  destruct (decide (refined search D q.1 = Some q.2)); [done|].
  destruct (decide (refined search D q.1 <> Some q.2)); [|done]. by split.
Qed.

(** One call of the lambda: it returns the refined position, bumps
    exactly one counter and prints two lines on a mismatch. *)
Lemma lookup_step x correct_idx st c :
  exists p,
    refined search D x = Some p /\
    lookup search D x correct_idx st c =
      if decide (p <> correct_idx) then
        ({| cout := cout c ++
              [[Str "PGM returned incorrect result for lookup key "; Num x];
               [Str "Start: "; Num (lo (search x));
                Str " Stop: "; Num (hi (search x));
                Str " Correct: "; Num correct_idx]];
            cerr := cerr c |},
         Returned (p, {| pred_correct := pred_correct st;
                         pred_incorrect := int_add (pred_incorrect st) 1 |}))
      else
        (c, Returned (p, {| pred_correct := int_add (pred_correct st) 1;
                            pred_incorrect := pred_incorrect st |})).
Proof.
  destruct (refined_defined x) as [p Hp]. exists p. split; [done|].
  unfold lookup, lift, Proc.bind. unfold refined in Hp. rewrite Hp.
  simpl. destruct (decide (p <> correct_idx)); simpl; [|done].
  unfold print_cout. simpl. by rewrite <- app_assoc.
Qed.

Lemma query_loop_tally queries :
  forall cnt st c,
    - 2 ^ 31 <= pred_correct st < 2 ^ 31 ->
    - 2 ^ 31 <= pred_incorrect st < 2 ^ 31 ->
    exists c' cnt' st',
      query_loop (lookup search D) queries cnt st c
      = (c', Returned (cnt', st')) /\
      pred_correct st'
      = wrap_signed 32 (pred_correct st + Z.of_nat (length (matches search D queries))) /\
      pred_incorrect st'
      = wrap_signed 32
          (pred_incorrect st + Z.of_nat (length (mismatches search D queries))) /\
      length (cout c')
      = (length (cout c) + 2 * length (mismatches search D queries))%nat /\
      cerr c' = cerr c.
Proof.
  induction queries as [|q queries IH]; intros cnt st c Hc Hi.
  - exists c, cnt, st. simpl. rewrite !Z.add_0_r, !wrap_signed_small by done.
    split; [done|]. repeat split; lia.
  - destruct (lookup_step q.1 q.2 st c) as (p & Hp & Hstep).
    cbn [query_loop]. unfold Proc.bind at 1. rewrite Hstep.
    destruct (decide (p <> q.2)) as [Hne|Heq].
    + destruct (tally_cons_mismatch q queries) as [-> ->];
        [rewrite Hp; congruence|].
      cbn [fst snd].
      edestruct IH as (c' & cnt' & st' & Hrun & Hcor & Hinc & Hout & Herr);
        [| |exists c', cnt', st'; split; [exact Hrun|]].
      * done.
      * apply wrap_signed_range.
      * cbn [pred_correct pred_incorrect cout cerr length] in *.
        split; [done|]. split.
        { rewrite Hinc. unfold int_add. rewrite wrap_signed_add. f_equal. lia. }
        split; [|done]. rewrite Hout, length_app. simpl. lia.
    + destruct (tally_cons_match q queries) as [-> ->];
        [rewrite Hp; f_equal; destruct (decide (p = q.2)); tauto|].
      cbn [fst snd].
      edestruct IH as (c' & cnt' & st' & Hrun & Hcor & Hinc & Hout & Herr);
        [| |exists c', cnt', st'; split; [exact Hrun|]].
      * apply wrap_signed_range.
      * done.
      * cbn [pred_correct pred_incorrect cout cerr length] in *.
        split; [|done].
        rewrite Hcor. unfold int_add. rewrite wrap_signed_add. f_equal. lia.
Qed.

End Tally.

(** C7: for every query the lambda returns normally and bumps exactly
    one counter, [pred_incorrect] if and only if the refined position
    differs from the expected one and [pred_correct] otherwise; a
    workload of N queries is processed to its end whatever the number of
    mismatches, each mismatch is reported by two lines on standard
    output, and afterwards correct + incorrect = N.  The index is asked
    only for windows that are non-empty and inside the dataset, and N
    fits an [int]. *)
Theorem tally_counts_every_query (search : Z -> PgmQuery.ApproxPos)
    (D : list Z) (queries : list (Z * Z)) (c : Proc.console) :
  (forall x, 0 <= PgmQuery.lo (search x)
             /\ PgmQuery.lo (search x) < PgmQuery.hi (search x)
             /\ PgmQuery.hi (search x) <= len D) ->
  len queries <= INT_MAX ->
  (forall x correct_idx st c0,
      exists p c1 st1,
        PgmQuery.lookup search D x correct_idx st c0
        = (c1, Proc.Returned (p, st1)) /\
        PgmQuery.refined search D x = Some p /\
        (p <> correct_idx ->
         PgmQuery.pred_incorrect st1 = int_add (PgmQuery.pred_incorrect st) 1
         /\ PgmQuery.pred_correct st1 = PgmQuery.pred_correct st) /\
        (p = correct_idx ->
         PgmQuery.pred_correct st1 = int_add (PgmQuery.pred_correct st) 1
         /\ PgmQuery.pred_incorrect st1 = PgmQuery.pred_incorrect st)) /\
  exists c' cnt st',
    PgmQuery.query_loop (PgmQuery.lookup search D) queries 0
      {| PgmQuery.pred_correct := 0; PgmQuery.pred_incorrect := 0 |} c
    = (c', Proc.Returned (cnt, st')) /\
    PgmQuery.pred_incorrect st'
    = len (PgmQuery.mismatches search D queries) /\
    PgmQuery.pred_correct st' = len (PgmQuery.matches search D queries) /\
    PgmQuery.pred_correct st' + PgmQuery.pred_incorrect st' = len queries /\
    length (Proc.cout c')
    = (length (Proc.cout c)
       + 2 * length (PgmQuery.mismatches search D queries))%nat.
Proof.
  intros Hb HN. split.
  - intros x correct_idx st c0.
    destruct (lookup_step search D Hb x correct_idx st c0) as (p & Hp & Hstep).
    rewrite Hstep. destruct (decide (p <> correct_idx)) as [Hne|Heq].
    + eexists p, _, _. split; [reflexivity|]. split; [done|]. split; [done|].
      intros ?. done.
    + eexists p, _, _. split; [reflexivity|]. split; [done|]. split; [done|].
      intros _. done.
  - destruct (query_loop_tally search D Hb queries 0
                {| PgmQuery.pred_correct := 0; PgmQuery.pred_incorrect := 0 |} c)
      as (c' & cnt & st' & Hrun & Hcor & Hinc & Hout & _); [simpl; lia..|].
    pose proof (matches_mismatches search D queries) as Hsum.
    unfold INT_MAX in HN. simpl in Hcor, Hinc.
    rewrite wrap_signed_small in Hcor by lia.
    rewrite wrap_signed_small in Hinc by lia.
    exists c', cnt, st'. split; [done|]. split; [done|]. split; [done|].
    split; [lia|done].
Qed.

Lemma tally_counts_every_query_witness :
  exists c' cnt st',
    PgmQuery.query_loop (PgmQuery.lookup whole_books books) [(3, 1); (8, 0)] 0
      {| PgmQuery.pred_correct := 0; PgmQuery.pred_incorrect := 0 |}
      Proc.start
    = (c', Proc.Returned (cnt, st')) /\
    PgmQuery.pred_correct st' + PgmQuery.pred_incorrect st' = 2.
Proof.
  destruct (tally_counts_every_query whole_books books [(3, 1); (8, 0)]
              Proc.start) as [_ (c' & cnt & st' & Hrun & _ & _ & Hsum & _)].
  - intros x. simpl. lia.
  - unfold INT_MAX. simpl. lia.
  - exists c', cnt, st'. split; [exact Hrun|exact Hsum].
Defined.

(** ** Query generation *)

Section Generate.
Import PgmQuery.
Context `{URBG G}.
Variable D : list Z.

Lemma deref_result (i x : Z) :
  result (deref D i) = Some x -> 0 <= i < len D /\ D !! Z.to_nat i = Some x.
Proof.
  unfold deref, result. simpl. destruct (decide (0 <= i)); [|done].
  intros Hx. split; [|done]. apply lookup_lt_Some in Hx. lia.
Qed.

(** A draw equal to [dataset.size()] makes the loop read past the end. *)
Lemma generate_loop_past_end n (g g' : G) raw rs :
  next g = (raw, g') -> raw mod (len D + 1) = len D ->
  result (generate_loop D (S n) g rs) = None.
Proof.
  intros Hg Hraw. cbn [generate_loop]. unfold uniform_int_distribution.
  rewrite Hg. replace (len D - 0 + 1) with (len D + 1) by lia.
  rewrite Hraw, result_bind, deref_past_end by lia. reflexivity.
Qed.

(** Whenever the loop runs to its end, every pair it appended holds a
    key of the dataset and the lower-bound position of that key. *)
Lemma generate_loop_sound n :
  Sorted Z.le D ->
  forall (g : G) rs out,
    result (generate_loop D n g rs) = Some out ->
    exists new, out = rs ++ new /\ length new = n /\
                Forall (fun q => q.1 ∈ D /\ q.2 = lower_bound_position D q.1)
                  new.
Proof.
  intros HS. induction n as [|n IH]; intros g rs out Hout.
  - exists []. simpl in Hout. rewrite app_nil_r.
    split; [congruence|]. split; [done|constructor].
  - cbn [generate_loop] in Hout. unfold uniform_int_distribution in Hout.
    destruct (next g) as [raw g'].
    rewrite result_bind in Hout.
    destruct (result (deref D _)) as [key|] eqn:Hkey; [|done].
    apply deref_result in Hkey as [_ Hkey].
    rewrite result_bind, std_lower_bound_full in Hout by done.
    apply IH in Hout as (new & -> & Hlen & Hall).
    exists ((key, lower_bound_position D key) :: new).
    rewrite <- app_assoc. split; [done|]. split; [simpl; lia|].
    constructor; [|done]. split; [|done].
    eapply list_elem_of_lookup_2; eauto.
Qed.

End Generate.

(** C1, where the code departs from it: the distribution is built over
    the closed interval [0, dataset.size()], so a draw can be
    [dataset.size()] itself; with a generator whose first output maps to
    that index, [generate_queries] reads the element one past the end of
    the dataset instead of a key of the dataset. *)
Theorem generate_queries_reads_past_end (D : list Z) :
  result (PgmQuery.generate_queries (H := PgmQuery.replay) [len D] D) = None.
Proof.
  unfold PgmQuery.generate_queries.
  assert (exists n, Z.to_nat PgmQuery.NUM_LOOKUPS = S n) as [n ->].
  { exists (Z.to_nat (PgmQuery.NUM_LOOKUPS - 1)).
    rewrite <- Z2Nat.inj_succ by (unfold PgmQuery.NUM_LOOKUPS; lia).
    reflexivity. }
  eapply generate_loop_past_end; [reflexivity|].
  apply Z.mod_small. lia.
Qed.

(** ** Dataset loading *)

Section Load.
Import Proc Loader.

Lemma max_size_uint64 : max_size 8 = 2 ^ 60 - 1.
Proof. reflexivity. Qed.

Lemma read_available (n : Z) o (bytes : list byte) :
  0 <= n -> (Z.to_nat n <= length bytes)%nat ->
  read n {| is_open := o; pending := bytes; good := true |}
  = (take (Z.to_nat n) bytes,
     {| is_open := o; pending := drop (Z.to_nat n) bytes; good := true |}).
Proof.
  intros Hn Hlen. unfold read. cbn [good pending is_open].
  rewrite bool_decide_true by (rewrite length_take; lia). reflexivity.
Qed.


Lemma length_le_encode w x : length (le_encode w x) = w.
Proof. revert x. induction w as [|w IH]; intros x; simpl; [done|]. by rewrite IH. Qed.

Lemma le_decode_encode w x :
  0 <= x < 256 ^ Z.of_nat w -> le_decode (le_encode w x) = x.
Proof.
  revert x. induction w as [|w IH]; intros x Hx.
  - simpl in *. lia.
  - rewrite Nat2Z.inj_succ, Z.pow_succ_r in Hx by lia.
    cbn [le_encode le_decode].
    pose proof (Z.mod_pos_bound x 256 ltac:(lia)) as Hmod.
    pose proof (Z.div_mod x 256 ltac:(lia)) as Hdm.
    rewrite IH.
    2:{ split; [apply Z.div_pos; lia|]. apply Z.div_lt_upper_bound; lia. }
    destruct (Byte.of_N (Z.to_N (x mod 256))) as [b|] eqn:Hb.
    + apply Byte.to_of_N in Hb. change (default Byte.x00 (Some b)) with b.
      rewrite Hb, Z2N.id; lia.
    + apply Byte.of_N_None_iff in Hb. lia.
Qed.

Lemma le_decode_zeros n : le_decode (replicate n Byte.x00) = 0.
Proof. induction n as [|n IH]; simpl; [done|]. rewrite IH. reflexivity. Qed.

Lemma elements_nil n : elements 8 n [] = replicate n 0.
Proof.
  unfold elements. cbn [app length]. rewrite Nat.sub_0_r.
  transitivity (replicate (length (seq 0 n)) 0);
    [|by rewrite length_seq].
  apply const_fmap.
  intros i j _. by rewrite drop_replicate, take_replicate, le_decode_zeros.
Qed.

Lemma elements_cons (chunk rest : list byte) n :
  length chunk = 8%nat ->
  elements 8 (S n) (chunk ++ rest) = le_decode chunk :: elements 8 n rest.
Proof.
  intros Hchunk. unfold elements.
  rewrite <- app_assoc, length_app, Hchunk.
  replace (S n * 8 - (8 + length rest))%nat with (n * 8 - length rest)%nat
    by lia.
  set (storage := rest ++ replicate (n * 8 - length rest) Byte.x00).
  cbn [seq fmap list_fmap]. f_equal.
  - change (drop (0 * 8) (chunk ++ storage)) with (chunk ++ storage).
    by rewrite take_app_length'.
  - rewrite <- fmap_S_seq, <- list_fmap_compose.
    apply list_fmap_ext. intros i j _. cbn [compose]. f_equal. f_equal.
    replace (S j * 8)%nat with (8 + j * 8)%nat by lia.
    by apply drop_app_add'.
Qed.

Lemma elements_of_present (present : list Z) :
  Forall (fun x => 0 <= x < 2 ^ 64) present ->
  forall n, (length present <= n)%nat ->
    elements 8 n (concat (le_encode 8 <$> present))
    = present ++ replicate (n - length present) 0.
Proof.
  induction 1 as [|x present Hx _ IH]; intros n Hn.
  - cbn [fmap list_fmap concat app length]. rewrite Nat.sub_0_r.
    apply elements_nil.
  - destruct n as [|n]; [simpl in Hn; lia|].
    cbn [fmap list_fmap concat]. fold (fmap (M := list) (le_encode 8) present).
    rewrite elements_cons by apply length_le_encode.
    rewrite le_decode_encode by (change (256 ^ Z.of_nat 8) with (2 ^ 64); lia).
    rewrite IH by (simpl in Hn; lia). reflexivity.
Qed.

Lemma length_payload (present : list Z) :
  length (concat (le_encode 8 <$> present)) = (8 * length present)%nat.
Proof.
  induction present as [|x present IH]; [done|].
  cbn [fmap list_fmap concat]. fold (fmap (M := list) (le_encode 8) present).
  rewrite length_app, length_le_encode, IH. simpl. lia.
Qed.

(** A file that opens and starts with the header of a count within
    [max_size()]: the vector gets that many elements, filled from the
    bytes that follow the header. *)
Lemma load_after_header (fs : gmap string (list byte)) (filename : string)
    (c : console) (count : Z) (payload : list byte) :
  fs !! filename = Some (le_encode 8 count ++ payload) ->
  0 <= count <= max_size 8 ->
  load_data 8 fs filename c
  = (c, Returned (elements 8 (Z.to_nat count)
                    (take (8 * Z.to_nat count) payload))).
Proof.
  intros Hfs Hcount. rewrite max_size_uint64 in Hcount.
  unfold load_data, open. rewrite Hfs. cbn [is_open negb].
  rewrite read_available
    by (change (Z.to_nat 8) with 8%nat;
        rewrite ?length_app, ?length_le_encode; lia).
  change (Z.to_nat 8) with 8%nat.
  rewrite take_app_length' by (by rewrite length_le_encode).
  rewrite drop_app_length' by (by rewrite length_le_encode).
  rewrite bool_decide_true by apply length_le_encode.
  rewrite le_decode_encode by (change (256 ^ Z.of_nat 8) with (2 ^ 64); lia).
  rewrite decide_True by (rewrite max_size_uint64; lia).
  assert (to_streamsize (u64 (count * Z.of_nat 8)) = count * 8) as ->.
  { unfold to_streamsize, u64, wrap_signed.
    change (Z.of_nat 8) with 8. change (64 - 1) with 63.
    rewrite (Z.mod_small (count * 8)) by lia.
    rewrite Z.mod_small by lia. lia. }
  unfold read. cbn [good pending].
  replace (Z.to_nat (count * 8)) with (8 * Z.to_nat count)%nat by lia.
  reflexivity.
Qed.

Lemma load_dataset_file (fs : gmap string (list byte)) (filename : string)
    (c : console) (count : Z) (present : list Z) :
  fs !! filename = Some (dataset_file count present) ->
  0 <= count -> count * 8 < 2 ^ 63 -> len present <= count ->
  Forall (fun x => 0 <= x < 2 ^ 64) present ->
  load_data 8 fs filename c
  = (c, Returned (present
                  ++ replicate (Z.to_nat count - length present) 0)).
Proof.
  intros Hfs Hcount Hsmall Hlen Hrange.
  rewrite (load_after_header fs filename c count
             (concat (le_encode 8 <$> present)))
    by (done || rewrite max_size_uint64; lia).
  rewrite take_ge by (rewrite length_payload; lia).
  do 2 f_equal. apply elements_of_present; [done|lia].
Qed.

End Load.




(** ** The dynamic index and the workload driver *)

Lemma rem2_even (x : Z) : (Z.rem x 2 =? 0) = Z.even x.
Proof.
  destruct (Z.even x) eqn:He.
  - apply Z.even_spec in He as [k ->]. apply Z.eqb_eq.
    rewrite Z.mul_comm. apply Z.rem_mul. lia.
  - apply Z.eqb_neq.
    assert (Z.odd x = true) as [k ->]%Z.odd_spec
      by (rewrite <- Z.negb_even, He; done).
    intros Hrem. pose proof (Z.quot_rem' (2 * k + 1) 2) as Hqr.
    rewrite Hrem in Hqr. lia.
Qed.

Lemma rem2_int_add_1 (c : Z) :
  (Z.rem (int_add c 1) 2 =? 0) = negb (Z.rem c 2 =? 0).
Proof.
  rewrite !rem2_even. unfold int_add, wrap_signed. change (32 - 1) with 31.
  rewrite Z.mod_eq by lia.
  set (q := (c + 1 + 2 ^ 31) / 2 ^ 32).
  replace (c + 1 + 2 ^ 31 - 2 ^ 32 * q - 2 ^ 31) with (c + 1 - 2 ^ 32 * q)
    by lia.
  rewrite Z.even_sub, Z.even_add, Z.even_mul.
  change (Z.even (2 ^ 32)) with true. change (Z.even 1) with false.
  by destruct (Z.even c).
Qed.

Section SpecIndex.
Import DynamicPGMIndex UpdateBooks.
Variable footprint : gmap Z Z -> Z.

Local Abbreviation idx := (spec_index footprint).

Lemma bulk_insert_lookup (data : list Z) :
  forall (m : gmap Z Z) key,
    bulk_insert (H := idx) data m !! key
    = if decide (key ∈ data) then Some 1 else m !! key.
Proof.
  induction data as [|k data IH]; intros m key.
  - cbn [bulk_insert].
    destruct (decide (key ∈ [])) as [Hin|_]; [by apply elem_of_nil in Hin|done].
  - cbn [bulk_insert insert_or_assign spec_index]. rewrite IH.
    destruct (decide (key ∈ data)) as [Hin|Hin];
      destruct (decide (key ∈ k :: data)) as [Hin'|Hin']; try done.
    + exfalso. apply Hin'. by right.
    + apply elem_of_cons in Hin' as [->|?]; [|done]. apply lookup_insert_eq.
    + apply lookup_insert_ne. intros ->. apply Hin'. by left.
Qed.

Lemma bulk_insert_size (data : list Z) :
  forall m : gmap Z Z,
    NoDup data -> (forall key, key ∈ data -> m !! key = None) ->
    base.size (bulk_insert (H := idx) data m) = (base.size m + length data)%nat.
Proof.
  induction data as [|k data IH]; intros m Hnd Hfresh.
  - simpl. lia.
  - apply NoDup_cons in Hnd as [Hk Hnd].
    cbn [bulk_insert insert_or_assign spec_index].
    rewrite IH; [|done|].
    + rewrite map_size_insert_None by (apply Hfresh; set_solver).
      simpl. lia.
    + intros key Hkey. rewrite lookup_insert_ne by set_solver.
      apply Hfresh. set_solver.
Qed.

Lemma half_delete_other (data : list Z) :
  forall counter (m : gmap Z Z) key,
    key ∉ data -> half_delete (H := idx) data counter m !! key = m !! key.
Proof.
  induction data as [|k data IH]; intros counter m key Hkey; [done|].
  cbn [half_delete]. rewrite IH by set_solver.
  destruct (Z.rem counter 2 =? 0); [|done].
  cbn [erase spec_index]. rewrite lookup_delete_ne; [done|set_solver].
Qed.

Lemma half_delete_lookup (data : list Z) :
  forall (i : nat) counter (m : gmap Z Z) key,
    NoDup data -> data !! i = Some key ->
    half_delete (H := idx) data counter m !! key
    = if Bool.eqb (Nat.even i) (Z.rem counter 2 =? 0) then None
      else m !! key.
Proof.
  induction data as [|k data IH]; intros i counter m key Hnd Hi; [done|].
  apply NoDup_cons in Hnd as [Hk Hnd]. cbn [half_delete].
  destruct i as [|i].
  - assert (k = key) as -> by (simpl in Hi; congruence).
    rewrite half_delete_other by done.
    destruct (Z.rem counter 2 =? 0); simpl; [|done].
    cbn [erase spec_index]. apply lookup_delete_eq.
  - simpl in Hi. rewrite (IH i) by done. rewrite rem2_int_add_1, Nat.even_succ.
    rewrite <- Nat.negb_even.
    assert (key <> k) as Hne.
    { intros ->. apply Hk. eapply list_elem_of_lookup_2; eauto. }
    destruct (Nat.even i), (Z.rem counter 2 =? 0); simpl; try done.
    cbn [erase spec_index]. by rewrite lookup_delete_ne.
Qed.

End SpecIndex.

(** C5: starting from the empty index, after the insertion loop over M
    unique samples the index reports [size() = M]; after the erase loop
    over the same samples, every sample at an even ordinal position is
    absent ([find] gives the end marker) and every sample at an odd
    ordinal position is present. *)
Theorem bulk_insert_then_half_delete (footprint : gmap Z Z -> Z)
    (data : list Z) :
  NoDup data ->
  let index := DynamicPGMIndex.spec_index footprint in
  let loaded := UpdateBooks.bulk_insert (H := index) data
                  DynamicPGMIndex.empty in
  DynamicPGMIndex.size loaded = len data /\
  forall (i : nat) key,
    data !! i = Some key ->
    DynamicPGMIndex.find key (UpdateBooks.half_delete (H := index) data 0 loaded)
    = if Nat.even i then None else Some 1.
Proof.
  intros Hnd index loaded. split.
  - subst loaded index. cbn [DynamicPGMIndex.size DynamicPGMIndex.spec_index].
    rewrite bulk_insert_size; [|done|].
    + cbn [DynamicPGMIndex.empty DynamicPGMIndex.spec_index].
      rewrite map_size_empty. lia.
    + intros key _. apply lookup_empty.
  - intros i key Hi. subst loaded index.
    cbn [DynamicPGMIndex.find DynamicPGMIndex.spec_index].
    rewrite (half_delete_lookup footprint data i) by done.
    change (Z.rem 0 2 =? 0) with true.
    rewrite bulk_insert_lookup.
    rewrite decide_True by (eapply list_elem_of_lookup_2; eauto).
    by destruct (Nat.even i).
Qed.

Lemma bulk_insert_then_half_delete_witness :
  let index := DynamicPGMIndex.spec_index (fun _ => 0) in
  let loaded := UpdateBooks.bulk_insert (H := index) [2; 4; 6; 8]
                  DynamicPGMIndex.empty in
  let halved := UpdateBooks.half_delete (H := index) [2; 4; 6; 8] 0 loaded in
  DynamicPGMIndex.size loaded = 4 /\
  DynamicPGMIndex.find 2 halved = None /\
  DynamicPGMIndex.find 4 halved = Some 1 /\
  DynamicPGMIndex.find 6 halved = None /\
  DynamicPGMIndex.find 8 halved = Some 1.
Proof.
  intros index loaded halved.
  destruct (bulk_insert_then_half_delete (fun _ => 0) [2; 4; 6; 8])
    as [Hsize Hfind].
  - apply (bool_decide_unpack _). vm_compute. exact I.
  - split; [exact Hsize|].
    split; [exact (Hfind 0%nat 2 eq_refl)|].
    split; [exact (Hfind 1%nat 4 eq_refl)|].
    split; [exact (Hfind 2%nat 6 eq_refl)|exact (Hfind 3%nat 8 eq_refl)].
Defined.

(** C6, as amended: once the dataset is loaded, the driver inserts the
    samples, prints the element count and the memory footprint that the
    index reports, and goes on to the erase loop and the lookups whatever
    that count is; the count is not compared with M, and the run returns
    0. *)
Theorem driver_reports_size_and_continues `{DynamicPGMIndex.Index Ix}
    (fs : gmap string (list byte)) (data samples_never_seen_before : list Z)
    (c : Proc.console) (dataset : list Z) :
  Loader.load_data 8 fs UpdateBooks.dataset_name c
  = (c, Proc.Returned dataset) ->
  let loaded := UpdateBooks.bulk_insert data DynamicPGMIndex.empty in
  UpdateBooks.main fs data samples_never_seen_before c
  = ({| Proc.cout :=
          Proc.cout c ++
          [[Proc.Str "Inserting data"];
           [Proc.Str "Number of elements in container: ";
            Proc.Num (DynamicPGMIndex.size loaded)];
           [Proc.Str "Index size in bytes: ";
            Proc.Num (DynamicPGMIndex.index_size_in_bytes loaded)];
           [Proc.Str "Deleting half of dataset"]];
        Proc.cerr :=
          Proc.cerr c ++
          (if decide (0 < len data)
           then [[Proc.Str "Generated "; Proc.Num (len data)]] else []) |},
     Proc.Returned (0, UpdateBooks.half_delete data 0 loaded)).
Proof.
  intros Hload loaded. unfold UpdateBooks.main, Proc.bind at 1.
  rewrite Hload. unfold UpdateBooks.generate_samples.
  destruct (decide (0 < len data));
    unfold Proc.bind, Proc.print_cout, Proc.print_cerr, Proc.ret; simpl;
    rewrite <- !app_assoc, ?app_nil_r; reflexivity.
Qed.

Lemma driver_reports_size_and_continues_witness :
  exists c',
    UpdateBooks.main (H := DynamicPGMIndex.miscounting_index)
      {[ UpdateBooks.dataset_name := two_keys_file ]} [2; 4; 6; 8] []
      Proc.start
    = (c', Proc.Returned
             (0, UpdateBooks.half_delete
                   (H := DynamicPGMIndex.miscounting_index) [2; 4; 6; 8] 0
                   (UpdateBooks.bulk_insert
                      (H := DynamicPGMIndex.miscounting_index) [2; 4; 6; 8]
                      ∅))).
Proof.
  eexists.
  apply (driver_reports_size_and_continues
           (H := DynamicPGMIndex.miscounting_index)
           {[ UpdateBooks.dataset_name := two_keys_file ]} [2; 4; 6; 8] []
           Proc.start [7; 9]).
  vm_compute. reflexivity.
Defined.

(** C6 as worded fails: with an index that reports 0 elements after the
    four samples 2, 4, 6, 8 were inserted, the run is not stopped; it
    erases the samples at even positions and returns 0. *)
Lemma size_mismatch_is_not_fatal :
  ~ (forall (index : DynamicPGMIndex.Index (gmap Z Z))
            (fs : gmap string (list byte)) (data : list Z) c,
        DynamicPGMIndex.size
          (UpdateBooks.bulk_insert (H := index) data DynamicPGMIndex.empty)
        <> len data ->
        forall c' status final,
          UpdateBooks.main (H := index) fs data [] c
          <> (c', Proc.Returned (status, final))).
Proof.
  intros Hfatal.
  eapply (Hfatal DynamicPGMIndex.miscounting_index
            {[ UpdateBooks.dataset_name := two_keys_file ]} [2; 4; 6; 8]
            Proc.start).
  - vm_compute. congruence.
  - vm_compute. reflexivity.
Qed.

(** C9: erasing a key that the index does not hold succeeds and leaves
    the stored pairs and [size()] as they were; and the playground run,
    [insert_or_assign(4, 8)] then [erase(4)] on the empty index, ends
    with [find(4)] giving the end marker and [size()] being 0, which is
    what it prints. *)
Theorem erase_absent_is_noop (footprint : gmap Z Z -> Z) :
  let index := DynamicPGMIndex.spec_index footprint in
  (forall (m : gmap Z Z) key,
      DynamicPGMIndex.find key m = None ->
      DynamicPGMIndex.erase key m = m /\
      DynamicPGMIndex.size (DynamicPGMIndex.erase key m)
      = DynamicPGMIndex.size m) /\
  (let m := DynamicPGMIndex.erase 4
              (DynamicPGMIndex.insert_or_assign 4 8 DynamicPGMIndex.empty) in
   DynamicPGMIndex.find 4 m = None /\ DynamicPGMIndex.size m = 0) /\
  Playground.main (H := index) Proc.start
  = ({| Proc.cout :=
          [[Proc.Str "find(4) = "; Proc.Str "not found"];
           [Proc.Str "Number of elements in container: "; Proc.Num 0];
           [Proc.Str "Index size in bytes: "; Proc.Num (footprint ∅)]];
        Proc.cerr := [] |},
     Proc.Returned ∅).
Proof.
  intros index.
  assert (DynamicPGMIndex.erase (Index := index) 4
            (DynamicPGMIndex.insert_or_assign 4 8 DynamicPGMIndex.empty) = ∅)
    as Hempty.
  { subst index. cbn. by rewrite delete_insert_eq, delete_empty. }
  split; [|split].
  - intros m key Hfind. subst index. cbn in *.
    rewrite delete_id by done. done.
  - cbn zeta. rewrite Hempty. subst index. cbn.
    rewrite lookup_empty, map_size_empty. done.
  - unfold Playground.main. rewrite Hempty. subst index. cbn.
    rewrite lookup_empty, map_size_empty. reflexivity.
Qed.

Lemma erase_absent_is_noop_witness :
  let index := DynamicPGMIndex.spec_index (fun _ => 0) in
  DynamicPGMIndex.erase 6 (DynamicPGMIndex.insert_or_assign 4 8 ∅)
  = DynamicPGMIndex.insert_or_assign 4 8 ∅.
Proof.
  intros index.
  destruct (erase_absent_is_noop (fun _ => 0)) as [Hnoop _].
  apply (Hnoop (DynamicPGMIndex.insert_or_assign 4 8 ∅) 6). reflexivity.
Defined.

(** ** The example scenarios of the specification *)

Example expected_position_of_3 : lower_bound_position books 3 = 1.
Proof. reflexivity. Qed.

Example expected_position_of_8 : lower_bound_position books 8 = 4.
Proof. reflexivity. Qed.

Example full_search_of_3 :
  result (std_lower_bound books 0 5 3) = Some 1.
Proof. reflexivity. Qed.

Example refine_key_0 : result (lower_bound_branchless books 0 5 0) = Some 0.
Proof. reflexivity. Qed.

Example refine_key_10 : result (lower_bound_branchless books 0 5 10) = Some 5.
Proof. reflexivity. Qed.

Example refine_key_3_trace :
  lower_bound_branchless books 0 5 3
  = ([Prefetch 1; Prefetch 3; Read 2; Prefetch 0; Prefetch 1; Read 1;
      Prefetch 0; Prefetch 1; Read 1; Read 0], Some 1).
Proof. reflexivity. Qed.

Example refine_empty_window_at_end :
  lower_bound_branchless books 5 5 3 = ([Read 5], None).
Proof. reflexivity. Qed.

Example half_of_four_keys :
  let index := DynamicPGMIndex.spec_index (fun _ => 0) in
  DynamicPGMIndex.size
    (UpdateBooks.half_delete (H := index) [2; 4; 6; 8] 0
       (UpdateBooks.bulk_insert (H := index) [2; 4; 6; 8] ∅)) = 2.
Proof. vm_compute. reflexivity. Qed.

Example load_two_keys :
  Loader.load_data 8 {[ PgmQuery.dataset_name := two_keys_file ]}
    PgmQuery.dataset_name Proc.start
  = (Proc.start, Proc.Returned [7; 9]).
Proof. vm_compute. reflexivity. Qed.

Example queries_over_books :
  result (PgmQuery.generate_loop (H := PgmQuery.replay) books 2 [2; 4] [])
  = Some [(3, 1); (9, 4)].
Proof. vm_compute. reflexivity. Qed.

Example queries_past_end_of_books :
  result (PgmQuery.generate_loop (H := PgmQuery.replay) books 2 [2; 5] [])
  = None.
Proof. vm_compute. reflexivity. Qed.

(** * Further properties *)

(** ** The refiner on any non-empty window *)

Lemma partition_point_clamp (D : list Z) key lo hi p :
  partition_point D key 0 (len D) p ->
  0 <= lo -> lo <= hi -> hi <= len D ->
  partition_point D key lo hi (Z.max lo (Z.min hi p)).
Proof.
  intros (Hp & Hlt & Hge) Hlo Hle Hhi. split; [lia|].
  split; intros i x Hi Hx; [eapply Hlt|eapply Hge]; eauto; lia.
Qed.

(** X1: over a sorted dataset and on any non-empty window inside it,
    whether or not it holds the lower-bound position of the key, the
    refiner returns that position clamped into [lo, hi]: [lo] when the
    position lies before the window and [hi] when it lies after it. *)
Theorem branchless_refiner_clamps (D : list Z) (k lo hi : Z) :
  Sorted Z.le D ->
  0 <= lo -> lo < hi -> hi <= len D ->
  result (lower_bound_branchless D lo hi k)
  = Some (Z.max lo (Z.min hi (lower_bound_position D k))).
Proof.
  intros HS Hlo Hlt Hhi.
  destruct (lower_bound_branchless_partition D k lo hi HS)
    as (q & Hq & Hpp); [lia..|].
  rewrite Hq. f_equal.
  eapply partition_point_unique; [..|exact Hpp|]; [lia..|].
  apply partition_point_clamp; [|lia..].
  by apply lower_bound_position_partition.
Qed.

Lemma branchless_refiner_clamps_witness :
  result (lower_bound_branchless books 0 2 8) = Some 2
  /\ result (lower_bound_branchless books 3 5 3) = Some 3.
Proof.
  split.
  - change (Some 2)
      with (Some (Z.max 0 (Z.min 2 (lower_bound_position books 8)))).
    apply (branchless_refiner_clamps books 8 0 2);
      [unfold books; solve_sorted | lia | lia | simpl; lia].
  - change (Some 3)
      with (Some (Z.max 3 (Z.min 5 (lower_bound_position books 3)))).
    apply (branchless_refiner_clamps books 3 3 5);
      [unfold books; solve_sorted | lia | lia | simpl; lia].
Defined.

(** ** The cost of a refinement *)

Lemma log2_up_halve (n : Z) :
  1 < n -> Z.log2_up (n - Z.quot n 2) = Z.log2_up n - 1.
Proof.
  intros Hn. destruct (half_bounds n Hn) as (Hh1 & Hh2 & _).
  rewrite Z.quot_div_nonneg in * by lia.
  pose proof (Z.div_mod n 2 ltac:(lia)) as Hdm.
  pose proof (Z.mod_pos_bound n 2 ltac:(lia)) as Hmod.
  destruct (decide (n = 2)) as [->|Hn2]; [reflexivity|].
  pose proof (Z.log2_up_spec n Hn) as [Hlow Hup].
  assert (2 <= Z.log2_up n) as Hk.
  { destruct (decide (2 <= Z.log2_up n)) as [|Hsmall]; [done|].
    assert (Z.log2_up n <= 1) as Hle1 by lia.
    pose proof (Z.log2_up_nonneg n).
    assert (2 ^ Z.log2_up n <= 2 ^ 1) by (apply Z.pow_le_mono_r; lia).
    change (2 ^ 1) with 2 in *. lia. }
  apply Z.log2_up_unique; [lia|].
  replace (Z.pred (Z.log2_up n - 1)) with (Z.log2_up n - 2) by lia.
  replace (Z.pred (Z.log2_up n)) with (Z.succ (Z.log2_up n - 2)) in Hlow by lia.
  replace (Z.log2_up n) with (Z.succ (Z.succ (Z.log2_up n - 2))) in Hup by lia.
  replace (Z.log2_up n - 1) with (Z.succ (Z.log2_up n - 2)) by lia.
  rewrite !Z.pow_succ_r in * by lia.
  set (a := 2 ^ (Z.log2_up n - 2)) in *. lia.
Qed.

Lemma branchless_loop_cost (D : list Z) value n :
  forall first,
    1 <= n -> 0 <= first -> first + n <= len D ->
    read_count (trace (branchless_loop D value first n)) = Z.log2_up n /\
    prefetch_count (trace (branchless_loop D value first n))
    = 2 * Z.log2_up n.
Proof.
  induction n as [n IH] using (well_founded_induction (Z.lt_wf 0)).
  intros first Hn Hfirst Hlast.
  destruct (decide (1 < n)) as [Hgt|Hle].
  - rewrite branchless_loop_step by done.
    destruct (half_bounds n Hgt) as (Hh1 & Hh2 & _).
    pose proof (log2_up_halve n Hgt) as Hlog.
    set (half := Z.quot n 2) in *.
    destruct (deref_in_range D (first + half)) as (x & _ & Hx); [lia|].
    rewrite !bind_prefetch, (bind_deref _ _ x) by done.
    cbn [trace fst read_count prefetch_count].
    set (first' := if comp x value then first + half else first).
    assert (first <= first' /\ first' + (n - half) <= first + n) as [Hf1 Hf2]
      by (subst first'; destruct (comp x value); lia).
    destruct (IH (n - half) ltac:(lia) first') as [Hr Hp]; [lia..|].
    rewrite Hr, Hp, Hlog. lia.
  - rewrite branchless_loop_done by lia.
    replace n with 1 by lia. split; reflexivity.
Qed.

(** X2: on a non-empty window of [hi - lo] elements inside the dataset
    the refiner reads [log2_up (hi - lo) + 1] elements (one per halving
    step and the final one) and issues two prefetch hints per halving
    step, whatever the data and the key. *)
Theorem branchless_refiner_cost (D : list Z) (k lo hi : Z) :
  0 <= lo -> lo < hi -> hi <= len D ->
  read_count (trace (lower_bound_branchless D lo hi k))
  = Z.log2_up (hi - lo) + 1
  /\ prefetch_count (trace (lower_bound_branchless D lo hi k))
     = 2 * Z.log2_up (hi - lo).
Proof.
  intros Hlo Hlt Hhi. unfold lower_bound_branchless.
  destruct (branchless_loop_bounds D k (hi - lo) lo)
    as (f & Hf & Hrange & _); [lia..|].
  destruct (branchless_loop_cost D k (hi - lo) lo) as [Hr Hp]; [lia..|].
  destruct (deref_in_range D f) as (x & _ & Hx); [lia|].
  rewrite trace_bind, Hf, (bind_deref _ _ x) by done.
  cbn [trace fst]. fold (trace (branchless_loop D k lo (hi - lo))).
  assert (forall t u, read_count (t ++ u) = read_count t + read_count u) as Hra.
  { intros t u. induction t as [|[i|i] t IHt]; simpl; lia. }
  assert (forall t u,
             prefetch_count (t ++ u) = prefetch_count t + prefetch_count u)
    as Hpa.
  { intros t u. induction t as [|[i|i] t IHt]; simpl; lia. }
  rewrite Hra, Hpa, Hr, Hp. simpl. lia.
Qed.

Lemma branchless_refiner_cost_witness :
  read_count (trace (lower_bound_branchless books 0 5 3)) = 4
  /\ prefetch_count (trace (lower_bound_branchless books 0 5 3)) = 6.
Proof.
  apply (branchless_refiner_cost books 3 0 5); [lia | lia | simpl; lia].
Defined.

(** ** What the tally measures *)

Section Oracle.
Import Proc PgmQuery.

Variable search : Z -> ApproxPos.
Variable D : list Z.

Hypothesis dataset_sorted : Sorted Z.le D.

Hypothesis search_in_bounds :
  forall x, 0 <= lo (search x) /\ lo (search x) < hi (search x)
            /\ hi (search x) <= len D.

Lemma refined_clamp x :
  refined search D x
  = Some (Z.max (lo (search x))
            (Z.min (hi (search x)) (lower_bound_position D x))).
Proof.
  destruct (search_in_bounds x) as (H0 & H1 & H2). unfold refined.
  destruct (lower_bound_branchless_partition D x (lo (search x))
              (hi (search x)) dataset_sorted H0 H1 H2) as (q & Hq & Hpp).
  rewrite Hq. f_equal.
  eapply partition_point_unique; [..|exact Hpp|]; [lia..|].
  apply partition_point_clamp; [|lia..].
  by apply lower_bound_position_partition.
Qed.

Lemma query_loop_all_correct queries :
  Forall (fun q => q.2 = lower_bound_position D q.1
                   /\ lo (search q.1) <= q.2 <= hi (search q.1)) queries ->
  forall cnt st c,
    - 2 ^ 31 <= pred_correct st < 2 ^ 31 ->
    exists cnt',
      query_loop (lookup search D) queries cnt st c
      = (c, Returned
              (cnt',
               {| pred_correct :=
                    wrap_signed 32 (pred_correct st + len queries);
                  pred_incorrect := pred_incorrect st |})).
Proof.
  induction 1 as [|q queries [Hq Hin] _ IH]; intros cnt st c Hst.
  - exists cnt. simpl. rewrite Z.add_0_r, wrap_signed_small by done.
    by destruct st.
  - destruct (lookup_step search D search_in_bounds q.1 q.2 st c)
      as (p & Hp & Hstep).
    rewrite refined_clamp in Hp.
    assert (p = q.2) as -> by (injection Hp as Hp; lia).
    rewrite decide_False in Hstep by tauto.
    cbn [query_loop]. unfold Proc.bind at 1. rewrite Hstep. cbn [fst snd].
    edestruct IH as [cnt' Hrun]; [|exists cnt'; rewrite Hrun].
    + apply wrap_signed_range.
    + cbn [pred_correct pred_incorrect].
      replace (wrap_signed 32 (int_add (pred_correct st) 1 + len queries))
        with (wrap_signed 32 (pred_correct st + len (q :: queries)));
        [done|].
      unfold int_add. rewrite wrap_signed_add, length_cons.
      apply (f_equal (wrap_signed 32)). lia.
Qed.

End Oracle.

Section Timing.
Import Proc PgmQuery.

Variable search : Z -> ApproxPos.
Variable D : list Z.

Hypothesis search_in_bounds :
  forall x, 0 <= lo (search x) /\ lo (search x) < hi (search x)
            /\ hi (search x) <= len D.

Lemma query_loop_cnt queries :
  forall cnt st c,
    0 <= cnt < 2 ^ 64 ->
    exists c' st',
      query_loop (lookup search D) queries cnt st c
      = (c', Returned
               (u64 (cnt + foldr (fun q acc =>
                                    default 0 (refined search D q.1) + acc)
                             0 queries),
                st')).
Proof.
  induction queries as [|q queries IH]; intros cnt st c Hcnt.
  - exists c, st. simpl. unfold u64. rewrite Z.add_0_r, Z.mod_small by done.
    done.
  - destruct (lookup_step search D search_in_bounds q.1 q.2 st c)
      as (p & Hp & Hstep).
    cbn [query_loop foldr]. unfold Proc.bind at 1. rewrite Hstep, Hp.
    cbn [default].
    assert (forall (c1 : console) (st1 : tally),
               exists c' st',
                 query_loop (lookup search D) queries (u64 (cnt + p)) st1 c1
                 = (c', Returned
                          (u64 (cnt + (p + foldr (fun q acc =>
                                    default 0 (refined search D q.1) + acc)
                                            0 queries)), st'))) as Hrest.
    { intros c1 st1.
      destruct (IH (u64 (cnt + p)) st1 c1) as (c' & st' & Hrun).
      - unfold u64. apply Z.mod_pos_bound. lia.
      - exists c', st'. rewrite Hrun. do 3 f_equal. unfold u64.
        rewrite Zplus_mod_idemp_l. f_equal. lia. }
    destruct (decide (p <> q.2)); cbn [fst snd]; apply Hrest.
Qed.

End Timing.

(** X3: over a sorted dataset, a query that carries the true lower-bound
    position of its key is counted as correct exactly when that position
    lies in the closed range [lo, hi] the index returned; when it lies
    outside, the lambda returns another position, bumps [pred_incorrect]
    and prints its two-line report. *)
Theorem lookup_counts_contract_violations
    (search : Z -> PgmQuery.ApproxPos) (D : list Z) (x : Z)
    (st : PgmQuery.tally) (c : Proc.console) :
  Sorted Z.le D ->
  (forall y, 0 <= PgmQuery.lo (search y)
             /\ PgmQuery.lo (search y) < PgmQuery.hi (search y)
             /\ PgmQuery.hi (search y) <= len D) ->
  let p := lower_bound_position D x in
  (PgmQuery.lo (search x) <= p <= PgmQuery.hi (search x) ->
   PgmQuery.lookup search D x p st c
   = (c, Proc.Returned
           (p, {| PgmQuery.pred_correct :=
                    int_add (PgmQuery.pred_correct st) 1;
                  PgmQuery.pred_incorrect := PgmQuery.pred_incorrect st |})))
  /\
  (~ PgmQuery.lo (search x) <= p <= PgmQuery.hi (search x) ->
   exists c' r,
     PgmQuery.lookup search D x p st c
     = (c', Proc.Returned
              (r, {| PgmQuery.pred_correct := PgmQuery.pred_correct st;
                     PgmQuery.pred_incorrect :=
                       int_add (PgmQuery.pred_incorrect st) 1 |}))
     /\ r <> p
     /\ length (Proc.cout c') = S (S (length (Proc.cout c)))).
Proof.
  intros HS Hb p.
  destruct (lookup_step search D Hb x p st c) as (r & Hr & Hstep).
  rewrite (refined_clamp search D HS Hb) in Hr. fold p in Hr.
  injection Hr as Hr. clearbody p. split.
  - intros Hin. assert (r = p) as -> by lia.
    rewrite Hstep. destruct (decide (p <> p)); [done|reflexivity].
  - intros Hout. pose proof (Hb x) as Hx.
    assert (r <> p) as Hne by lia.
    rewrite Hstep. destruct (decide (r <> p)); [|done].
    eexists _, r. split; [reflexivity|]. split; [done|].
    cbn [Proc.cout]. rewrite length_app. simpl. lia.
Qed.

Lemma lookup_counts_contract_violations_witness :
  PgmQuery.lookup whole_books books 8 4
    {| PgmQuery.pred_correct := 0; PgmQuery.pred_incorrect := 0 |} Proc.start
  = (Proc.start,
     Proc.Returned
       (4, {| PgmQuery.pred_correct := 1; PgmQuery.pred_incorrect := 0 |})).
Proof.
  destruct (lookup_counts_contract_violations whole_books books 8
              {| PgmQuery.pred_correct := 0; PgmQuery.pred_incorrect := 0 |}
              Proc.start) as [Hin _].
  - unfold books. solve_sorted.
  - intros y. simpl. lia.
  - apply Hin. vm_compute. split; congruence.
Defined.

(** X4: over a sorted dataset, when every query of a workload carries
    the true lower-bound position of its key and the index returns a
    range that holds it, the loop of [query_time] counts all N queries
    as correct, none as incorrect, and prints nothing (N fitting an
    [int]). *)
Theorem honoured_contract_all_correct (search : Z -> PgmQuery.ApproxPos)
    (D : list Z) (queries : list (Z * Z)) (c : Proc.console) :
  Sorted Z.le D ->
  (forall x, 0 <= PgmQuery.lo (search x)
             /\ PgmQuery.lo (search x) < PgmQuery.hi (search x)
             /\ PgmQuery.hi (search x) <= len D) ->
  Forall (fun q => q.2 = lower_bound_position D q.1
                   /\ PgmQuery.lo (search q.1) <= q.2
                      <= PgmQuery.hi (search q.1)) queries ->
  len queries <= INT_MAX ->
  exists cnt,
    PgmQuery.query_loop (PgmQuery.lookup search D) queries 0
      {| PgmQuery.pred_correct := 0; PgmQuery.pred_incorrect := 0 |} c
    = (c, Proc.Returned
            (cnt, {| PgmQuery.pred_correct := len queries;
                     PgmQuery.pred_incorrect := 0 |})).
Proof.
  intros HS Hb Hq HN.
  destruct (query_loop_all_correct search D HS Hb queries Hq 0
              {| PgmQuery.pred_correct := 0; PgmQuery.pred_incorrect := 0 |} c)
    as [cnt Hrun]; [simpl; lia|].
  exists cnt. rewrite Hrun. cbn [PgmQuery.pred_correct PgmQuery.pred_incorrect].
  unfold INT_MAX in HN. rewrite wrap_signed_small by lia. done.
Qed.

Lemma honoured_contract_all_correct_witness :
  exists cnt,
    PgmQuery.query_loop (PgmQuery.lookup whole_books books)
      [(3, 1); (8, 4); (10, 5)] 0
      {| PgmQuery.pred_correct := 0; PgmQuery.pred_incorrect := 0 |}
      Proc.start
    = (Proc.start,
       Proc.Returned
         (cnt, {| PgmQuery.pred_correct := 3; PgmQuery.pred_incorrect := 0 |})).
Proof.
  apply (honoured_contract_all_correct whole_books books
           [(3, 1); (8, 4); (10, 5)] Proc.start).
  - unfold books. solve_sorted.
  - intros x. simpl. lia.
  - repeat constructor; vm_compute; congruence.
  - unfold INT_MAX. simpl. lia.
Defined.

(** X5: [query_time] on an empty workload divides by zero (undefined
    behaviour); on a non-empty workload run with the lambda of
    [measure_perfomance] it returns the elapsed time divided by the
    number of queries, and the [cnt] it keeps alive is the sum of the
    refined positions modulo 2^64. *)
Theorem query_time_mean (search : Z -> PgmQuery.ApproxPos) (D : list Z)
    (queries : list (Z * Z)) (elapsed : Z) (st : PgmQuery.tally)
    (c : Proc.console) :
  (forall x, 0 <= PgmQuery.lo (search x)
             /\ PgmQuery.lo (search x) < PgmQuery.hi (search x)
             /\ PgmQuery.hi (search x) <= len D) ->
  (queries = [] ->
   PgmQuery.query_time (PgmQuery.lookup search D) queries elapsed st c
   = (c, Proc.Undefined))
  /\
  (queries <> [] ->
   exists c' st',
     PgmQuery.query_time (PgmQuery.lookup search D) queries elapsed st c
     = (c', Proc.Returned
              (u64 elapsed / len queries,
               u64 (foldr (fun q acc =>
                             default 0 (PgmQuery.refined search D q.1) + acc)
                      0 queries),
               st'))).
Proof.
  intros Hb. split.
  - intros ->. reflexivity.
  - intros Hne.
    destruct (query_loop_cnt search D Hb queries 0 st c) as (c' & st' & Hrun);
      [lia|].
    exists c', st'. unfold PgmQuery.query_time, Proc.bind. rewrite Hrun.
    rewrite decide_False by (destruct queries; [done|simpl; lia]).
    reflexivity.
Qed.

Lemma query_time_mean_witness :
  exists c' st',
    PgmQuery.query_time (PgmQuery.lookup whole_books books)
      [(3, 1); (8, 0)] 1000
      {| PgmQuery.pred_correct := 0; PgmQuery.pred_incorrect := 0 |}
      Proc.start
    = (c', Proc.Returned (500, 5, st')).
Proof.
  destruct (query_time_mean whole_books books [(3, 1); (8, 0)] 1000
              {| PgmQuery.pred_correct := 0; PgmQuery.pred_incorrect := 0 |}
              Proc.start) as [_ Hrun].
  - intros x. simpl. lia.
  - destruct Hrun as (c' & st' & Hrun); [done|].
    exists c', st'. exact Hrun.
Defined.

(** ** Query generation when every draw is a valid index *)

Lemma lower_bound_position_of_member (D : list Z) (i : nat) key :
  Sorted Z.le D -> D !! i = Some key ->
  D !! Z.to_nat (lower_bound_position D key) = Some key
  /\ lower_bound_position D key <= Z.of_nat i.
Proof.
  intros HS Hi. unfold lower_bound_position.
  destruct (list_find _ D) as [[j y]|] eqn:Hf.
  - apply list_find_Some in Hf as (Hj & Hy & Hbefore).
    assert (j <= i)%nat as Hji.
    { destruct (decide (j <= i)%nat) as [|Hgt]; [done|].
      exfalso. apply (Hbefore i key Hi); lia. }
    pose proof (sorted_lookup_le D j i y key HS Hji Hj Hi).
    rewrite Nat2Z.id. split; [|lia]. rewrite Hj. f_equal. lia.
  - rewrite list_find_None, Forall_forall in Hf.
    exfalso. apply (Hf key); [|simpl; lia].
    eapply list_elem_of_lookup_2; eauto.
Qed.

Section GenerateInRange.
Import PgmQuery.
Context `{URBG G}.
Variable D : list Z.
Hypothesis dataset_sorted : Sorted Z.le D.

Lemma generate_loop_in_range n :
  forall (g : G) rs,
    Forall (fun idx => idx < len D) (draws 0 (len D) n g) ->
    exists new,
      result (generate_loop D n g rs) = Some (rs ++ new) /\
      length new = n /\
      Forall (fun q => D !! Z.to_nat q.2 = Some q.1
                       /\ q.2 = lower_bound_position D q.1) new.
Proof.
  induction n as [|n IH]; intros g rs Hdraws.
  - exists []. rewrite app_nil_r. split; [done|]. split; [done|constructor].
  - cbn [generate_loop draws] in *.
    unfold uniform_int_distribution in *. destruct (next g) as [raw g'].
    apply Forall_cons in Hdraws as [Hidx Hdraws].
    assert (0 <= 0 + raw mod (len D - 0 + 1)) as Hnonneg
      by (pose proof (Z.mod_pos_bound raw (len D - 0 + 1)); lia).
    destruct (deref_in_range D (0 + raw mod (len D - 0 + 1)))
      as (key & Hkey & Hderef); [lia|].
    rewrite result_bind, Hderef. cbn [result snd].
    rewrite result_bind, std_lower_bound_full by done.
    destruct (IH g' (rs ++ [(key, lower_bound_position D key)]) Hdraws)
      as (new & Hrun & Hlen & Hall).
    exists ((key, lower_bound_position D key) :: new).
    rewrite Hrun, <- app_assoc. split; [done|]. split; [simpl; lia|].
    constructor; [|done]. split; [|done].
    by apply (lower_bound_position_of_member D _ key dataset_sorted Hkey).
Qed.

End GenerateInRange.

Lemma draws_replay_nil (a b : Z) (n : nat) :
  draws (H := PgmQuery.replay) a b n [] = replicate n a.
Proof.
  induction n as [|n IH]; [done|].
  cbn [draws replicate]. unfold PgmQuery.uniform_int_distribution.
  cbn [PgmQuery.next PgmQuery.replay]. rewrite IH, Zmod_0_l. f_equal. lia.
Qed.

Lemma num_lookups_nat : Z.of_nat (Z.to_nat PgmQuery.NUM_LOOKUPS)
                        = PgmQuery.NUM_LOOKUPS.
Proof. apply Z2Nat.id. unfold PgmQuery.NUM_LOOKUPS. lia. Qed.

(** X6: over a sorted dataset, when each of the NUM_LOOKUPS indices the
    distribution hands out is below the length of the dataset,
    [generate_queries] returns NUM_LOOKUPS pairs, and in each pair the
    position is the lower-bound position of the key and the dataset
    holds that key at that position (the first occurrence of the key). *)
Theorem generate_queries_in_range `{PgmQuery.URBG G} (g : G) (D : list Z) :
  Sorted Z.le D ->
  Forall (fun idx => idx < len D)
    (draws 0 (len D) (Z.to_nat PgmQuery.NUM_LOOKUPS) g) ->
  exists queries,
    result (PgmQuery.generate_queries g D) = Some queries /\
    len queries = PgmQuery.NUM_LOOKUPS /\
    Forall (fun q => D !! Z.to_nat q.2 = Some q.1
                     /\ q.2 = lower_bound_position D q.1) queries.
Proof.
  intros HS Hdraws. unfold PgmQuery.generate_queries.
  destruct (generate_loop_in_range D HS (Z.to_nat PgmQuery.NUM_LOOKUPS) g []
              Hdraws) as (new & Hrun & Hlen & Hall).
  exists new. split; [done|]. split; [|done].
  rewrite Hlen. apply num_lookups_nat.
Qed.

Lemma generate_queries_in_range_witness :
  exists queries,
    result (PgmQuery.generate_queries (H := PgmQuery.replay) [] books)
    = Some queries
    /\ len queries = PgmQuery.NUM_LOOKUPS.
Proof.
  destruct (generate_queries_in_range (H := PgmQuery.replay) [] books)
    as (queries & Hrun & Hlen & _).
  - unfold books. solve_sorted.
  - rewrite draws_replay_nil. apply Forall_replicate. simpl. lia.
  - exists queries. split; [exact Hrun|exact Hlen].
Defined.

(** X7: on an empty dataset the first iteration of [generate_queries]
    already reads out of bounds, whatever the generator: the
    distribution is over [0, 0] and [dataset[0]] does not exist. *)
Theorem generate_queries_empty_dataset `{PgmQuery.URBG G} (g : G) :
  result (PgmQuery.generate_queries g []) = None.
Proof.
  unfold PgmQuery.generate_queries.
  assert (exists n, Z.to_nat PgmQuery.NUM_LOOKUPS = S n) as [n ->].
  { exists (Z.to_nat (PgmQuery.NUM_LOOKUPS - 1)).
    rewrite <- Z2Nat.inj_succ by (unfold PgmQuery.NUM_LOOKUPS; lia).
    reflexivity. }
  destruct (PgmQuery.next g) as [raw g'] eqn:Hg.
  eapply (generate_loop_past_end [] n g g' raw); [exact Hg|].
  simpl. apply Z.mod_1_r.
Qed.

(** ** The benchmark program as a whole *)

Lemma load_data_missing (fs : gmap string (list byte)) (filename : string)
    (c : Proc.console) :
  fs !! filename = None ->
  Loader.load_data 8 fs filename c
  = ({| Proc.cout := Proc.cout c;
        Proc.cerr := Proc.cerr c
                     ++ [[Proc.Str "unable to open "; Proc.Str filename]] |},
     Proc.Exited Proc.EXIT_FAILURE).
Proof.
  intros Hfs. unfold Loader.load_data, Loader.open. rewrite Hfs. reflexivity.
Qed.

(** X8: when the dataset file cannot be opened, the benchmark program
    prints its two banner lines, writes the diagnostic to standard error
    and ends with [EXIT_FAILURE]: no query is generated or timed and no
    tally line is printed. *)
Theorem benchmark_exits_without_dataset `{PgmQuery.URBG G}
    (fs : gmap string (list byte)) (g : G)
    (PGMIndex : list Z -> Z -> PgmQuery.ApproxPos) (elapsed : Z)
    (c : Proc.console) :
  fs !! PgmQuery.dataset_name = None ->
  PgmQuery.main fs g PGMIndex elapsed c
  = ({| Proc.cout := Proc.cout c
                     ++ [[Proc.Str "Dataset - PGM"]; [Proc.Str "Books"]];
        Proc.cerr := Proc.cerr c
                     ++ [[Proc.Str "unable to open ";
                          Proc.Str PgmQuery.dataset_name]] |},
     Proc.Exited Proc.EXIT_FAILURE).
Proof.
  intros Hfs. unfold PgmQuery.main, PgmQuery.measure_perfomance.
  unfold Proc.bind at 1 2 3. cbn [Proc.print_cout Proc.cout Proc.cerr].
  unfold Proc.bind at 1. rewrite load_data_missing by done.
  cbn [Proc.cout Proc.cerr]. rewrite <- app_assoc. reflexivity.
Qed.

Lemma benchmark_exits_without_dataset_witness :
  PgmQuery.main (H := PgmQuery.replay) ∅ [] whole_dataset 0 Proc.start
  = ({| Proc.cout := [[Proc.Str "Dataset - PGM"]; [Proc.Str "Books"]];
        Proc.cerr := [[Proc.Str "unable to open ";
                       Proc.Str PgmQuery.dataset_name]] |},
     Proc.Exited Proc.EXIT_FAILURE).
Proof.
  apply (benchmark_exits_without_dataset (H := PgmQuery.replay) ∅ []
           whole_dataset 0 Proc.start).
  reflexivity.
Defined.

(** X9: end to end.  When the dataset file loads to a sorted dataset,
    every index drawn is below its length, and the index built over it
    answers every key with a non-empty range inside the dataset that
    holds the lower-bound position of the key, [measure_perfomance]
    prints the mean time per query and the line
    "Correct: 10000000 - Incorrect: 0", and returns that tally. *)
Theorem measure_perfomance_all_correct `{PgmQuery.URBG G}
    (fs : gmap string (list byte)) (g : G)
    (PGMIndex : list Z -> Z -> PgmQuery.ApproxPos) (elapsed : Z)
    (c : Proc.console) (D : list Z) :
  Loader.load_data 8 fs PgmQuery.dataset_name c = (c, Proc.Returned D) ->
  Sorted Z.le D ->
  Forall (fun idx => idx < len D)
    (draws 0 (len D) (Z.to_nat PgmQuery.NUM_LOOKUPS) g) ->
  (forall x, 0 <= PgmQuery.lo (PGMIndex D x)
             /\ PgmQuery.lo (PGMIndex D x) < PgmQuery.hi (PGMIndex D x)
             /\ PgmQuery.hi (PGMIndex D x) <= len D
             /\ PgmQuery.lo (PGMIndex D x) <= lower_bound_position D x
                <= PgmQuery.hi (PGMIndex D x)) ->
  PgmQuery.measure_perfomance fs g PGMIndex elapsed c
  = ({| Proc.cout :=
          Proc.cout c ++
          [[Proc.Str PgmQuery.dataset_name; Proc.Str ":";
            Proc.Num (u64 elapsed / PgmQuery.NUM_LOOKUPS)];
           [Proc.Str "Correct: "; Proc.Num PgmQuery.NUM_LOOKUPS;
            Proc.Str " - Incorrect: "; Proc.Num 0]];
        Proc.cerr := Proc.cerr c |},
     Proc.Returned {| PgmQuery.pred_correct := PgmQuery.NUM_LOOKUPS;
                      PgmQuery.pred_incorrect := 0 |}).
Proof.
  intros Hload HS Hdraws Hindex.
  destruct (generate_loop_in_range D HS (Z.to_nat PgmQuery.NUM_LOOKUPS) g []
              Hdraws) as (queries & Hgen & Hlen & Hall).
  assert (len queries = PgmQuery.NUM_LOOKUPS) as HN
    by (rewrite Hlen; apply num_lookups_nat).
  assert (forall x, 0 <= PgmQuery.lo (PGMIndex D x)
                    /\ PgmQuery.lo (PGMIndex D x) < PgmQuery.hi (PGMIndex D x)
                    /\ PgmQuery.hi (PGMIndex D x) <= len D) as Hb
    by (intros x; destruct (Hindex x) as (? & ? & ? & _); done).
  destruct (query_loop_all_correct (PGMIndex D) D HS Hb queries) with
    (cnt := 0) (c := c)
    (st := {| PgmQuery.pred_correct := 0; PgmQuery.pred_incorrect := 0 |})
    as [cnt Hrun].
  { eapply Forall_impl; [exact Hall|]. intros q [_ Hq]. split; [done|].
    rewrite Hq. apply Hindex. }
  { simpl. lia. }
  cbn [PgmQuery.pred_correct PgmQuery.pred_incorrect] in Hrun.
  rewrite Z.add_0_l, HN in Hrun.
  rewrite wrap_signed_small in Hrun by (unfold PgmQuery.NUM_LOOKUPS; lia).
  unfold PgmQuery.measure_perfomance. unfold Proc.bind at 1. rewrite Hload.
  unfold Proc.bind at 1, Proc.lift at 1.
  unfold PgmQuery.generate_queries. rewrite Hgen. cbn [app Proc.ret].
  unfold Proc.bind at 1, PgmQuery.query_time, Proc.bind at 1.
  rewrite Hrun.
  rewrite decide_False by (rewrite HN; unfold PgmQuery.NUM_LOOKUPS; lia).
  rewrite HN. cbn [Proc.ret fst snd].
  unfold Proc.bind, Proc.print_cout, Proc.ret. cbn [Proc.cout Proc.cerr].
  rewrite <- app_assoc. reflexivity.
Qed.

Lemma measure_perfomance_all_correct_witness :
  exists c',
    PgmQuery.measure_perfomance (H := PgmQuery.replay)
      {[ PgmQuery.dataset_name := two_keys_file ]} [] whole_dataset 0
      Proc.start
    = (c', Proc.Returned {| PgmQuery.pred_correct := PgmQuery.NUM_LOOKUPS;
                            PgmQuery.pred_incorrect := 0 |}).
Proof.
  eexists.
  apply (measure_perfomance_all_correct (H := PgmQuery.replay)
           {[ PgmQuery.dataset_name := two_keys_file ]} [] whole_dataset 0
           Proc.start [7; 9]).
  - vm_compute. reflexivity.
  - solve_sorted.
  - rewrite draws_replay_nil. apply Forall_replicate. simpl. lia.
  - intros x. pose proof (lower_bound_position_range [7; 9] x).
    simpl in *. lia.
Defined.

(** ** Loading a file written in the dataset format *)

(** X10: a file in the dataset format, the element count in 8
    little-endian bytes followed by the elements in 8 little-endian
    bytes each, loads to exactly the elements that were written; a file
    that declares more elements than it holds loads without any error
    report to the elements it holds followed by zeros up to the declared
    count. *)
Theorem load_data_of_dataset_file (fs : gmap string (list byte))
    (filename : string) (c : Proc.console) (count : Z) (present : list Z) :
  fs !! filename = Some (dataset_file count present) ->
  count * 8 < 2 ^ 63 -> len present <= count ->
  Forall (fun x => 0 <= x < 2 ^ 64) present ->
  Loader.load_data 8 fs filename c
  = (c, Proc.Returned
          (present ++ replicate (Z.to_nat count - length present) 0))
  /\ (len present = count ->
      Loader.load_data 8 fs filename c = (c, Proc.Returned present)).
Proof.
  intros Hfs Hsmall Hlen Hrange.
  assert (Loader.load_data 8 fs filename c
          = (c, Proc.Returned
                  (present ++ replicate (Z.to_nat count - length present) 0)))
    as Hload by (apply load_dataset_file; [done|lia|done..]).
  split; [exact Hload|].
  intros Heq. rewrite Hload.
  replace (Z.to_nat count - length present)%nat with 0%nat by lia.
  cbn [replicate]. by rewrite app_nil_r.
Qed.

Lemma load_data_of_dataset_file_witness :
  Loader.load_data 8 {[ PgmQuery.dataset_name := dataset_file 3 [7; 9] ]}
    PgmQuery.dataset_name Proc.start
  = (Proc.start, Proc.Returned [7; 9; 0])
  /\ Loader.load_data 8 {[ PgmQuery.dataset_name := dataset_file 2 [7; 9] ]}
       PgmQuery.dataset_name Proc.start
     = (Proc.start, Proc.Returned [7; 9]).
Proof.
  split.
  - apply (load_data_of_dataset_file
             {[ PgmQuery.dataset_name := dataset_file 3 [7; 9] ]}
             PgmQuery.dataset_name Proc.start 3 [7; 9]).
    + reflexivity.
    + lia.
    + simpl. lia.
    + repeat constructor; lia.
  - apply (load_data_of_dataset_file
             {[ PgmQuery.dataset_name := dataset_file 2 [7; 9] ]}
             PgmQuery.dataset_name Proc.start 2 [7; 9]).
    + reflexivity.
    + lia.
    + simpl. lia.
    + repeat constructor; lia.
    + reflexivity.
Defined.

(** ** The erase loop, for any index *)

Lemma even_positions_cons {A} (x : A) (l : list A) :
  even_positions (x :: l) = x :: odd_positions l.
Proof. by destruct l. Qed.

Lemma odd_positions_cons {A} (x : A) (l : list A) :
  odd_positions (x :: l) = even_positions l.
Proof. reflexivity. Qed.

Lemma even_odd_lengths {A} (l : list A) :
  (length (even_positions l) + length (odd_positions l) = length l)%nat /\
  (length (odd_positions l) <= length (even_positions l)
   <= S (length (odd_positions l)))%nat.
Proof.
  induction l as [|x l IH]; [simpl; lia|].
  rewrite even_positions_cons, odd_positions_cons. simpl. lia.
Qed.

Lemma half_delete_parity `{DynamicPGMIndex.Index Ix} (data : list Z) :
  forall counter (dynamic_pgm : Ix),
    UpdateBooks.half_delete data counter dynamic_pgm
    = foldl (fun index key => DynamicPGMIndex.erase key index) dynamic_pgm
        (if Z.rem counter 2 =? 0 then even_positions data
         else odd_positions data).
Proof.
  induction data as [|key data IH]; intros counter dynamic_pgm.
  - simpl. by destruct (Z.rem counter 2 =? 0).
  - cbn [UpdateBooks.half_delete]. rewrite IH, rem2_int_add_1.
    rewrite even_positions_cons, odd_positions_cons.
    by destruct (Z.rem counter 2 =? 0).
Qed.

(** X11: for any index and a sample vector of at most [INT_MAX]
    elements, so that the [int] counter never overflows, the erase loop
    calls [erase] exactly on the samples at the ordinal positions 0, 2,
    4, ..., in that order, and on no other key. *)
Theorem half_delete_erases_even_positions `{DynamicPGMIndex.Index Ix}
    (data : list Z) (dynamic_pgm : Ix) :
  len data <= INT_MAX ->
  UpdateBooks.half_delete data 0 dynamic_pgm
  = foldl (fun index key => DynamicPGMIndex.erase key index) dynamic_pgm
      (even_positions data).
Proof.
  intros _. rewrite half_delete_parity. change (Z.rem 0 2 =? 0) with true.
  reflexivity.
Qed.

Lemma half_delete_erases_even_positions_witness :
  let index := DynamicPGMIndex.miscounting_index in
  let loaded := UpdateBooks.bulk_insert (H := index) [2; 4; 6; 8; 10] ∅ in
  UpdateBooks.half_delete (H := index) [2; 4; 6; 8; 10] 0 loaded
  = delete 10 (delete 6 (delete 2 loaded)).
Proof.
  intros index loaded.
  apply (half_delete_erases_even_positions (H := index)
           [2; 4; 6; 8; 10] loaded).
  unfold INT_MAX. simpl. lia.
Defined.

(** ** The index after the workload *)

Section AfterWorkload.
Import DynamicPGMIndex UpdateBooks.
Variable footprint : gmap Z Z -> Z.
Local Abbreviation the_index := (spec_index footprint).

Lemma half_delete_size (data : list Z) :
  forall counter (m : gmap Z Z),
    NoDup data -> (forall key, key ∈ data -> is_Some (m !! key)) ->
    (base.size (half_delete (H := the_index) data counter m)
     + length (if (Z.rem counter 2 =? 0)%Z then even_positions data
               else odd_positions data)
     = base.size m)%nat.
Proof.
  induction data as [|k data IH]; intros counter m Hnd Hin.
  - simpl. destruct (Z.rem counter 2 =? 0); simpl; lia.
  - apply NoDup_cons in Hnd as [Hk Hnd]. cbn [half_delete].
    rewrite even_positions_cons, odd_positions_cons.
    pose proof (rem2_int_add_1 counter) as Hflip.
    destruct (Z.rem counter 2 =? 0) eqn:Hpar.
    + cbn [erase spec_index].
      specialize (IH (int_add counter 1) (delete k m) Hnd).
      rewrite Hflip in IH. cbn [negb] in IH.
      rewrite map_size_delete_Some in IH by (apply Hin; by left).
      assert (base.size m <> 0%nat) as Hpos.
      { destruct (Hin k ltac:(by left)) as [v Hv].
        intros Hz. apply map_size_empty_inv in Hz. subst m.
        by rewrite lookup_empty in Hv. }
      cbn [length].
      assert (forall key, key ∈ data -> is_Some (delete k m !! key)) as Hrest.
      { intros key Hkey. rewrite lookup_delete_ne.
        - apply Hin. by right.
        - intros ->. done. }
      specialize (IH Hrest). lia.
    + specialize (IH (int_add counter 1) m Hnd).
      rewrite Hflip in IH. cbn [negb] in IH.
      apply IH. intros key Hkey. apply Hin. by right.
Qed.

End AfterWorkload.

(** X12: with the index modelled as a map, after the insertion loop and
    the erase loop over M unique samples the index reports
    [size() = M / 2] (rounded down), and a key that is not among the
    samples, such as those of the last lookup loop, is absent. *)
Theorem half_delete_leaves_half (footprint : gmap Z Z -> Z)
    (data : list Z) :
  NoDup data ->
  let index := DynamicPGMIndex.spec_index footprint in
  let final := UpdateBooks.half_delete (H := index) data 0
                 (UpdateBooks.bulk_insert (H := index) data
                    DynamicPGMIndex.empty) in
  DynamicPGMIndex.size final = len data / 2 /\
  forall key, key ∉ data -> DynamicPGMIndex.find key final = None.
Proof.
  intros Hnd index final. subst final index. split.
  - cbn [DynamicPGMIndex.size DynamicPGMIndex.empty
           DynamicPGMIndex.spec_index].
    pose proof (half_delete_size footprint data 0
                  (UpdateBooks.bulk_insert
                     (H := DynamicPGMIndex.spec_index footprint) data ∅)
                  Hnd) as Hsize.
    change (Z.rem 0 2 =? 0) with true in Hsize.
    rewrite bulk_insert_size in Hsize; [|done|intros; apply lookup_empty].
    rewrite map_size_empty in Hsize.
    destruct (even_odd_lengths data) as [Hsum Hdiff].
    assert (base.size
              (UpdateBooks.half_delete
                 (H := DynamicPGMIndex.spec_index footprint) data 0
                 (UpdateBooks.bulk_insert
                    (H := DynamicPGMIndex.spec_index footprint) data ∅))
            = length (odd_positions data)) as ->.
    { apply Nat.add_cancel_r with (p := length (even_positions data)).
      rewrite Hsize; [lia|].
      intros key Hkey. rewrite bulk_insert_lookup, decide_True by done.
      by eexists. }
    apply Z.div_unique with (r := Z.of_nat (length (even_positions data))
                                  - Z.of_nat (length (odd_positions data)));
      lia.
  - intros key Hkey.
    cbn [DynamicPGMIndex.find DynamicPGMIndex.empty
           DynamicPGMIndex.spec_index].
    rewrite half_delete_other by done.
    rewrite bulk_insert_lookup, decide_False by done. apply lookup_empty.
Qed.

Lemma half_delete_leaves_half_witness :
  let index := DynamicPGMIndex.spec_index (fun _ => 0) in
  let final := UpdateBooks.half_delete (H := index) [2; 4; 6; 8; 10] 0
                 (UpdateBooks.bulk_insert (H := index) [2; 4; 6; 8; 10] ∅) in
  DynamicPGMIndex.size final = 2.
Proof.
  intros index final.
  destruct (half_delete_leaves_half (fun _ => 0) [2; 4; 6; 8; 10])
    as [Hsize _].
  - apply (bool_decide_unpack _). vm_compute. exact I.
  - exact Hsize.
Defined.

(** X13: when the dataset file cannot be opened, the dynamic workload
    program writes the diagnostic to standard error and ends with
    [EXIT_FAILURE] before any sample is inserted; it prints nothing on
    standard output. *)
Theorem driver_exits_without_dataset `{DynamicPGMIndex.Index Ix}
    (fs : gmap string (list byte)) (data samples_never_seen_before : list Z)
    (c : Proc.console) :
  fs !! UpdateBooks.dataset_name = None ->
  UpdateBooks.main fs data samples_never_seen_before c
  = ({| Proc.cout := Proc.cout c;
        Proc.cerr := Proc.cerr c
                     ++ [[Proc.Str "unable to open ";
                          Proc.Str UpdateBooks.dataset_name]] |},
     Proc.Exited Proc.EXIT_FAILURE).
Proof.
  intros Hfs. unfold UpdateBooks.main, Proc.bind at 1.
  rewrite load_data_missing by done. reflexivity.
Qed.

Lemma driver_exits_without_dataset_witness :
  UpdateBooks.main (H := DynamicPGMIndex.miscounting_index) ∅ [2; 4] []
    Proc.start
  = ({| Proc.cout := [];
        Proc.cerr := [[Proc.Str "unable to open ";
                       Proc.Str UpdateBooks.dataset_name]] |},
     Proc.Exited Proc.EXIT_FAILURE).
Proof.
  apply (driver_exits_without_dataset
           (H := DynamicPGMIndex.miscounting_index) ∅ [2; 4] [] Proc.start).
  reflexivity.
Defined.

(** ** A header above the maximum size of the vector *)

Example load_huge_header_aborts :
  Loader.load_data 8 {[ PgmQuery.dataset_name := huge_header_file ]}
    PgmQuery.dataset_name Proc.start
  = (Proc.start, Proc.Aborted).
Proof. vm_compute. reflexivity. Qed.

Example load_short_file_258 :
  Loader.load_data 8 {[ PgmQuery.dataset_name := short_file_258 ]}
    PgmQuery.dataset_name Proc.start
  = (Proc.start, Proc.Returned (7 :: 9 :: replicate 256 0)).
Proof. vm_compute. reflexivity. Qed.
